(** * Hydrogram update filters: a shallow embedding of [hydrogram/filters.py]

    The development follows the layout of the Python module: Python values
    and truthiness, the parsed update objects the filters read, the filter
    objects with their three combinators, the stateless catalog, and the
    parameterised filters [command], [regex], [user] and [chat].

    Text is modelled by [string]: every [ascii] stands for the Unicode code
    point of the same number, so the model covers Python strings whose code
    points are below 256.  [lower_char] and [is_space] are [str.lower] and the
    regular expression class [\s] on that range. *)

From Stdlib Require Import ZArith NArith Ascii String List Bool Lia Sorted.
From stdpp Require Import base gmap strings list.

Import ListNotations.
Local Open Scope string_scope.
Local Open Scope list_scope.

(** ** Characters and strings *)

Module Chars.

Definition code (c : ascii) : N := N_of_ascii c.

(** [\s] for [str] patterns: the ASCII white space, the four separators
    0x1c-0x1f, NEL and the no-break space. *)
Definition is_space (c : ascii) : bool :=
  let n := code c in
  ((9 <=? n) && (n <=? 13) || (28 <=? n) && (n <=? 32)
   || (n =? 133) || (n =? 160))%N.

Definition is_upper (c : ascii) : bool :=
  let n := code c in
  ((65 <=? n) && (n <=? 90)
   || (192 <=? n) && (n <=? 222) && negb (n =? 215))%N.

(** [str.lower] on one code point below 256. *)
Definition lower_char (c : ascii) : ascii :=
  if is_upper c then ascii_of_N (code c + 32) else c.

Fixpoint lower (s : string) : string :=
  match s with
  | EmptyString => EmptyString
  | String c t => String (lower_char c) (lower t)
  end.

Definition dquote : ascii := Eval cbv in ascii_of_N 34.
Definition squote : ascii := Eval cbv in ascii_of_N 39.
Definition backslash : ascii := Eval cbv in ascii_of_N 92.
Definition newline : ascii := Eval cbv in ascii_of_N 10.
Definition at_sign : ascii := Eval cbv in ascii_of_N 64.

Definition is_quote (c : ascii) : bool :=
  Ascii.eqb c dquote || Ascii.eqb c squote.

(** The characters the [re] syntax gives a meaning of their own. *)
Definition is_meta (c : ascii) : bool :=
  existsb (Ascii.eqb c)
    (list_ascii_of_string ".^$*+?{}[]\|()").

(** A character that a pattern matches literally, that is no white space
    and not the [@] of a mention. *)
Definition plain_char (c : ascii) : bool :=
  negb (is_space c) && negb (Ascii.eqb c at_sign) && negb (is_meta c).

Fixpoint plain (s : string) : bool :=
  match s with
  | EmptyString => true
  | String c t => plain_char c && plain t
  end.

(** [str.strip(chars)] for a single character. *)
Fixpoint lstrip (x : ascii) (s : string) : string :=
  match s with
  | String c t => if Ascii.eqb c x then lstrip x t else s
  | EmptyString => EmptyString
  end.

Fixpoint rstrip (x : ascii) (s : string) : string :=
  match s with
  | EmptyString => EmptyString
  | String c t =>
      match rstrip x t with
      | EmptyString => if Ascii.eqb c x then EmptyString else String c EmptyString
      | t' => String c t'
      end
  end.

Definition strip (x : ascii) (s : string) : string := rstrip x (lstrip x s).

(** [s.startswith(p)], returning what follows the prefix. *)
Fixpoint strip_prefix (p s : string) : option string :=
  match p, s with
  | EmptyString, _ => Some s
  | String a p', String b s' => if Ascii.eqb a b then strip_prefix p' s' else None
  | String _ _, EmptyString => None
  end.

End Chars.
Import Chars.

(** ** Python values and truthiness *)

Inductive pyval : Type :=
| VNone
| VBool (b : bool)
| VStr (s : string).

Definition truthy (v : pyval) : bool :=
  match v with
  | VNone => false
  | VBool b => b
  | VStr s => negb (String.eqb s "")
  end.

Definition is_bool (v : pyval) : bool :=
  match v with VBool _ => true | _ => false end.

(** [bool(x)], [not x], [x and y], [x or y]. *)
Definition py_bool (x : pyval) : pyval := VBool (truthy x).
Definition py_not (x : pyval) : pyval := VBool (negb (truthy x)).
Definition py_and (x y : pyval) : pyval := if truthy x then y else x.
Definition py_or (x y : pyval) : pyval := if truthy x then x else y.

Definition of_opt_bool (o : option bool) : pyval :=
  match o with Some b => VBool b | None => VNone end.
Definition of_opt_str (o : option string) : pyval :=
  match o with Some s => VStr s | None => VNone end.

(** Truthiness of an optional object that defines neither [__bool__] nor
    [__len__]: true exactly when it is there. *)
Definition present {A : Type} (o : option A) : bool :=
  match o with Some _ => true | None => false end.

(** [a or b] on optional strings, as in [message.text or message.caption]. *)
Definition str_or (a b : option string) : option string :=
  match a with
  | Some s => if String.eqb s "" then b else a
  | None => b
  end.

(** ** Exceptions and the evaluation monad *)

Inductive exn : Type :=
| ValueError (msg : string)
| AttributeError (msg : string).

Inductive outcome (A : Type) : Type :=
| Ret (a : A)
| Raise (e : exn).
Arguments Ret {A} a.
Arguments Raise {A} e.

(** A computation over a mutable world [W] (the update object, and anything
    else a filter function may write to). *)
Definition eval (W A : Type) : Type := W -> W * outcome A.

Definition ret {W A : Type} (a : A) : eval W A := fun w => (w, Ret a).
Definition raise {W A : Type} (e : exn) : eval W A := fun w => (w, Raise e).
Definition bind {W A B : Type} (m : eval W A) (k : A -> eval W B) : eval W B :=
  fun w =>
    match m w with
    | (w', Ret a) => k a w'
    | (w', Raise e) => (w', Raise e)
    end.

Notation "'let*' x ':=' m 'in' k" := (bind m (fun x => k))
  (at level 10, x name, m at level 100, k at level 200).

(** ** The parsed objects the filters read

    Only the fields the filters of this file touch are kept.  Every field is
    optional, as the parsing layer leaves it [None] unless the update carries
    that payload. *)

(** A parsed object whose content no filter looks into. *)
Inductive TLObject : Type := tl_object (id : N).

(** One [re.Match]: the span and the matched text. *)
Record Match : Type := mkMatch {
  match_start : nat;
  match_end : nat;
  match_group : string }.

Module enums.
Inductive ChatType : Type := PRIVATE | BOT | GROUP | SUPERGROUP | CHANNEL.

Definition ChatType_eqb (a b : ChatType) : bool :=
  match a, b with
  | PRIVATE, PRIVATE | BOT, BOT | GROUP, GROUP
  | SUPERGROUP, SUPERGROUP | CHANNEL, CHANNEL => true
  | _, _ => false
  end.

Inductive MessageMediaType : Type :=
| AUDIO | DOCUMENT | PHOTO | STICKER | VIDEO | ANIMATION
| VOICE | VIDEO_NOTE | CONTACT | LOCATION | VENUE | POLL.
End enums.

Module User.
Record t : Type := mk {
  id : Z;
  username : option string;
  is_self : option bool;
  is_bot : option bool }.
End User.

Module Chat.
Record t : Type := mk {
  id : Z;
  username : option string;
  type : enums.ChatType }.
End Chat.

Module Message.
Record t : Type := mk {
  text : option string;
  caption : option string;
  chat : option Chat.t;
  from_user : option User.t;
  outgoing : option bool;
  media : option enums.MessageMediaType;
  audio : option TLObject;
  document : option TLObject;
  photo : option TLObject;
  sticker : option TLObject;
  video : option TLObject;
  animation : option TLObject;
  voice : option TLObject;
  video_note : option TLObject;
  contact : option TLObject;
  location : option TLObject;
  venue : option TLObject;
  poll : option TLObject;
  command : option (list string);
  matches : option (list Match) }.

(** [message.command = v] and [message.matches = v]. *)
Definition set_command (v : option (list string)) (m : t) : t :=
  mk (text m) (caption m) (chat m) (from_user m) (outgoing m) (media m)
     (audio m) (document m) (photo m) (sticker m) (video m) (animation m)
     (voice m) (video_note m) (contact m) (location m) (venue m) (poll m)
     v (matches m).

Definition set_matches (v : option (list Match)) (m : t) : t :=
  mk (text m) (caption m) (chat m) (from_user m) (outgoing m) (media m)
     (audio m) (document m) (photo m) (sticker m) (video m) (animation m)
     (voice m) (video_note m) (contact m) (location m) (venue m) (poll m)
     (command m) v.

(** A message with every field unset. *)
Definition empty : t :=
  mk None None None None None None None None None None None None None None
     None None None None None None.
End Message.

Module CallbackQuery.
Record t : Type := mk {
  message : option Message.t;
  data : option string;
  matches : option (list Match) }.

Definition set_matches (v : option (list Match)) (q : t) : t :=
  mk (message q) (data q) v.
End CallbackQuery.

Module InlineQuery.
Record t : Type := mk {
  query : option string;
  matches : option (list Match) }.

Definition set_matches (v : option (list Match)) (q : t) : t :=
  mk (query q) v.
End InlineQuery.

(** What a handler may pass to a filter.  [UOther] stands for every update
    class that is none of the three above; it carries the class name. *)
Inductive Update : Type :=
| UMessage (m : Message.t)
| UCallbackQuery (q : CallbackQuery.t)
| UInlineQuery (q : InlineQuery.t)
| UOther (class_name : string).

Module Client.
Record t : Type := mk { me : option User.t }.
End Client.

(** ** Filter objects and the combinators *)

(** [filter_coroutine] is [inspect.iscoroutinefunction(f.__call__)];
    [call f client] is [f(client, update)], the update being part of the
    world. *)
Record Filter (W : Type) : Type := mkFilter {
  filter_name : string;
  filter_coroutine : bool;
  call : Client.t -> eval W pyval }.
Arguments mkFilter {W} _ _ _.
Arguments filter_name {W} _.
Arguments filter_coroutine {W} _.
Arguments call {W} _ _ _.

Section Combinators.
Context {W : Type}.

(** [await f(client, update)]: the coroutine runs to its end. *)
Definition await (f : Filter W) (client : Client.t) : eval W pyval :=
  call f client.

(** [await client.loop.run_in_executor(client.executor, f, client, update)]:
    the caller is suspended until the worker has run [f] to its end, and an
    exception of [f] is raised again in the caller. *)
Definition run_in_executor (f : Filter W) (client : Client.t) : eval W pyval :=
  call f client.

(** The dispatch every combinator does on each operand. *)
Definition dispatch (f : Filter W) (client : Client.t) : eval W pyval :=
  if filter_coroutine f then await f client else run_in_executor f client.

Definition InvertFilter (base : Filter W) : Filter W :=
  mkFilter "InvertFilter" true (fun client =>
    let* x := dispatch base client in
    ret (py_not x)).

Definition AndFilter (base other : Filter W) : Filter W :=
  mkFilter "AndFilter" true (fun client =>
    let* x := dispatch base client in
    if negb (truthy x) then ret (VBool false)
    else
      let* y := dispatch other client in
      ret (py_and x y)).

Definition OrFilter (base other : Filter W) : Filter W :=
  mkFilter "OrFilter" true (fun client =>
    let* x := dispatch base client in
    if truthy x then ret (VBool true)
    else
      let* y := dispatch other client in
      ret (py_or x y)).

Definition CUSTOM_FILTER_NAME : string := "CustomFilter".

(** [create(func, name, **kwargs)]: an instance of a fresh class whose
    [__call__] is [func] and whose attributes are the keyword arguments
    [kwargs]; [func] receives the instance, that is its [kwargs].
    [func_name] is [func.__name__]. *)
Definition create {K : Type} (func : K -> Client.t -> eval W pyval)
    (func_name : string) (name : option string) (kwargs : K) : Filter W :=
  mkFilter
    (match str_or name (Some func_name) with
     | Some n => if String.eqb n "" then CUSTOM_FILTER_NAME else n
     | None => CUSTOM_FILTER_NAME
     end)
    false
    (func kwargs).

End Combinators.

(** ** The stateless catalog *)

(** A filter function that only reads a message: [def f(_, __, m: Message)]. *)
Definition reads (f : Message.t -> pyval) (_ : unit) (_ : Client.t)
  : eval Message.t pyval :=
  fun m => (m, Ret (f m)).

Definition all_filter (_ : Message.t) : pyval := VBool true.
Definition all := create (reads all_filter) "all_filter" None tt.

Definition me_filter (m : Message.t) : pyval :=
  py_bool (match Message.from_user m with
           | Some u => of_opt_bool (User.is_self u)
           | None => of_opt_bool (Message.outgoing m)
           end).
Definition me := create (reads me_filter) "me_filter" None tt.

Definition bot_filter (m : Message.t) : pyval :=
  py_bool (match Message.from_user m with
           | Some u => of_opt_bool (User.is_bot u)
           | None => VNone
           end).
Definition bot := create (reads bot_filter) "bot_filter" None tt.

Definition incoming_filter (m : Message.t) : pyval :=
  py_not (of_opt_bool (Message.outgoing m)).
Definition incoming := create (reads incoming_filter) "incoming_filter" None tt.

Definition outgoing_filter (m : Message.t) : pyval :=
  of_opt_bool (Message.outgoing m).
Definition outgoing := create (reads outgoing_filter) "outgoing_filter" None tt.

Definition text_filter (m : Message.t) : pyval :=
  py_bool (of_opt_str (Message.text m)).
Definition text := create (reads text_filter) "text_filter" None tt.

Definition caption_filter (m : Message.t) : pyval :=
  py_bool (of_opt_str (Message.caption m)).
Definition caption := create (reads caption_filter) "caption_filter" None tt.

Definition audio_filter (m : Message.t) : pyval := VBool (present (Message.audio m)).
Definition document_filter (m : Message.t) : pyval := VBool (present (Message.document m)).
Definition photo_filter (m : Message.t) : pyval := VBool (present (Message.photo m)).
Definition sticker_filter (m : Message.t) : pyval := VBool (present (Message.sticker m)).
Definition animation_filter (m : Message.t) : pyval := VBool (present (Message.animation m)).
Definition video_filter (m : Message.t) : pyval := VBool (present (Message.video m)).
Definition voice_filter (m : Message.t) : pyval := VBool (present (Message.voice m)).
Definition video_note_filter (m : Message.t) : pyval := VBool (present (Message.video_note m)).
Definition contact_filter (m : Message.t) : pyval := VBool (present (Message.contact m)).
Definition location_filter (m : Message.t) : pyval := VBool (present (Message.location m)).
Definition venue_filter (m : Message.t) : pyval := VBool (present (Message.venue m)).
Definition poll_filter (m : Message.t) : pyval := VBool (present (Message.poll m)).

(** [return bool(m.media)]; an enumeration member is truthy. *)
Definition media_filter (m : Message.t) : pyval :=
  VBool (present (Message.media m)).
Definition media := create (reads media_filter) "media_filter" None tt.

(** The twelve fields the docstring of [media] lists, in its order. *)
Definition media_fields (m : Message.t) : list (option TLObject) :=
  [ Message.audio m; Message.document m; Message.photo m; Message.sticker m;
    Message.video m; Message.animation m; Message.voice m;
    Message.video_note m; Message.contact m; Message.location m;
    Message.venue m; Message.poll m ].

(** Modelled from the spec: the parser that fills [Message.media] is not
    among the sources.  The specification (and the docstring of [media])
    makes [media] the disjunction of the twelve media fields: it names the
    kind of the first one that is set, and is [None] when none is. *)
Definition parsed_media (m : Message.t) : option enums.MessageMediaType :=
  let kind {A : Type} (field : option A) (k : enums.MessageMediaType) rest :=
    match field with Some _ => Some k | None => rest end in
  kind (Message.audio m) enums.AUDIO (
  kind (Message.document m) enums.DOCUMENT (
  kind (Message.photo m) enums.PHOTO (
  kind (Message.sticker m) enums.STICKER (
  kind (Message.video m) enums.VIDEO (
  kind (Message.animation m) enums.ANIMATION (
  kind (Message.voice m) enums.VOICE (
  kind (Message.video_note m) enums.VIDEO_NOTE (
  kind (Message.contact m) enums.CONTACT (
  kind (Message.location m) enums.LOCATION (
  kind (Message.venue m) enums.VENUE (
  kind (Message.poll m) enums.POLL None))))))))))).

(** A message as the parser hands it over. *)
Definition media_parsed (m : Message.t) : Prop :=
  Message.media m = parsed_media m.

(** *** Chat-scope filters *)

(** [type(m)] as the error message shows it.  The class is given by its
    name alone: the modules that declare the classes, whose path Python
    prints in front of the name, are outside the files at hand. *)
Definition type_repr (m : Update) : string :=
  match m with
  | UMessage _ => "<class 'Message'>"
  | UCallbackQuery _ => "<class 'CallbackQuery'>"
  | UInlineQuery _ => "<class 'InlineQuery'>"
  | UOther n => "<class '" +:+ n +:+ "'>"
  end.

(** The error of an attribute read on [None]. *)
Definition none_has_no (attr : string) : exn :=
  AttributeError ("'NoneType' object has no attribute '" +:+ attr +:+ "'").

(** The shape dispatch the three chat-scope filters open with:
    [m.chat] for a message, [m.message.chat] for a callback query, and a
    [ValueError] for anything else. *)
Definition scope_chat (label : string) (m : Update) : outcome (option Chat.t) :=
  match m with
  | UMessage msg => Ret (Message.chat msg)
  | UCallbackQuery q =>
      match CallbackQuery.message q with
      | Some msg => Ret (Message.chat msg)
      | None => Raise (none_has_no "chat")
      end
  | _ => Raise (ValueError (label +:+ " filter doesn't work with " +:+ type_repr m))
  end.

Definition type_in (ts : list enums.ChatType) (value : option Chat.t) : pyval :=
  match value with
  | Some c => VBool (existsb (enums.ChatType_eqb (Chat.type c)) ts)
  | None => VNone
  end.

Definition private_filter (_ : unit) (_ : Client.t) : eval Update pyval :=
  fun m =>
    match scope_chat "Private" m with
    | Raise e => (m, Raise e)
    | Ret value => (m, Ret (py_bool (type_in [enums.PRIVATE; enums.BOT] value)))
    end.
Definition private := create private_filter "private_filter" None tt.

Definition group_filter (_ : unit) (_ : Client.t) : eval Update pyval :=
  fun m =>
    match scope_chat "Group" m with
    | Raise e => (m, Raise e)
    | Ret value => (m, Ret (py_bool (type_in [enums.GROUP; enums.SUPERGROUP] value)))
    end.
Definition group := create group_filter "group_filter" None tt.

Definition channel_filter (_ : unit) (_ : Client.t) : eval Update pyval :=
  fun m =>
    match scope_chat "Channel" m with
    | Raise e => (m, Raise e)
    | Ret value => (m, Ret (py_bool (type_in [enums.CHANNEL] value)))
    end.
Definition channel := create channel_filter "channel_filter" None tt.

(** An update of a class none of the filters knows. *)
Definition unrecognised (u : Update) : Prop :=
  match u with
  | UOther _ => True
  | _ => False
  end.

(** ** The [regex] filter *)

(** A compiled pattern, as far as the filter uses it: its [finditer], the
    non-overlapping matches from left to right. *)
Record Pattern : Type := mkPattern { finditer : string -> list Match }.

(** [pattern: str | Pattern] *)
Inductive pattern_arg : Type :=
| PatternSource (s : string)
| Compiled (p : Pattern).

Record RegexKwargs : Type := mkRegex { p : Pattern }.

Definition get_matches (update : Update) : option (list Match) :=
  match update with
  | UMessage m => Message.matches m
  | UCallbackQuery q => CallbackQuery.matches q
  | UInlineQuery q => InlineQuery.matches q
  | UOther _ => None
  end.

Definition set_matches (v : option (list Match)) (update : Update) : Update :=
  match update with
  | UMessage m => UMessage (Message.set_matches v m)
  | UCallbackQuery q => UCallbackQuery (CallbackQuery.set_matches v q)
  | UInlineQuery q => UInlineQuery (InlineQuery.set_matches v q)
  | UOther n => UOther n
  end.

(** [l or None] and [bool(l)] for a list. *)
Definition list_or_none {A : Type} (l : list A) : option (list A) :=
  match l with [] => None | _ => Some l end.
Definition of_opt_list {A : Type} (o : option (list A)) : bool :=
  match o with Some (_ :: _) => true | _ => false end.

Definition regex_func (flt : RegexKwargs) (_ : Client.t) : eval Update pyval :=
  fun update =>
    let value :=
      match update with
      | UMessage m => Ret (str_or (Message.text m) (Message.caption m))
      | UCallbackQuery q => Ret (CallbackQuery.data q)
      | UInlineQuery q => Ret (InlineQuery.query q)
      | UOther _ =>
          Raise (ValueError ("Regex filter doesn't work with " +:+ type_repr update))
      end in
    match value with
    | Raise e => (update, Raise e)
    | Ret value =>
        let update' :=
          if truthy (of_opt_str value)
          then set_matches
                 (list_or_none (finditer (p flt) (default "" value))) update
          else update in
        (update', Ret (VBool (of_opt_list (get_matches update'))))
    end.

Section Regex.
(** [re.compile(pattern, flags)] for a pattern given as text. *)
Variable re_compile : string -> Z -> Pattern.

Definition regex_kwargs (pattern : pattern_arg) (flags : Z) : RegexKwargs :=
  mkRegex (match pattern with
           | Compiled c => c
           | PatternSource s => re_compile s flags
           end).

Definition regex (pattern : pattern_arg) (flags : Z) : Filter Update :=
  create regex_func "func" (Some "RegexFilter") (regex_kwargs pattern flags).
End Regex.

(** ** The membership filters [user] and [chat] *)

(** An identifier: [int | str]. *)
Definition ident : Type := Z + string.
Definition Id (z : Z) : ident := inl z.
Definition Name (s : string) : ident := inr s.

(** [users: int | str | list[int | str] | None] *)
Inductive ident_arg : Type :=
| NoIdent
| OneIdent (u : ident)
| ManyIdents (l : list ident).

Definition ident_list (a : ident_arg) : list ident :=
  match a with
  | NoIdent => []
  | OneIdent u => [u]
  | ManyIdents l => l
  end.

(** The element expression of both constructors: [me] for the strings [me]
    and [self]; else, for a string, [u.lower()] stripped of [@] at both ends;
    else (an integer) [u] itself. *)
Definition normalize (u : ident) : ident :=
  match u with
  | inr s =>
      if String.eqb s "me" || String.eqb s "self" then Name "me"
      else Name (strip at_sign (lower s))
  | inl z => Id z
  end.

(** Both classes are a [set] that is also a filter: the object is the set. *)
Definition user (users : ident_arg) : gset ident :=
  list_to_set (map normalize (ident_list users)).

Definition chat (chats : ident_arg) : gset ident :=
  list_to_set (map normalize (ident_list chats)).

(** [set.add] and [set.update], which neither class overrides. *)
Definition set_add (x : ident) (self : gset ident) : gset ident := {[x]} ∪ self.
Definition set_update (xs : list ident) (self : gset ident) : gset ident :=
  list_to_set xs ∪ self.

(** [x in self] *)
Definition contains (self : gset ident) (x : ident) : bool :=
  bool_decide (x ∈ self).

Definition user_call (self : gset ident) (_ : Client.t) (message : Message.t)
  : pyval :=
  match Message.from_user message with
  | None => VNone
  | Some from_user =>
      py_or
        (py_or
           (VBool (contains self (Id (User.id from_user))))
           (py_and (of_opt_str (User.username from_user))
              (VBool (contains self
                        (Name (lower (default "" (User.username from_user))))))))
        (py_and (VBool (contains self (Name "me")))
           (of_opt_bool (User.is_self from_user)))
  end.

Definition chat_call (self : gset ident) (_ : Client.t) (message : Message.t)
  : pyval :=
  match Message.chat message with
  | None => VNone
  | Some c =>
      py_or
        (py_or
           (VBool (contains self (Id (Chat.id c))))
           (py_and (of_opt_str (Chat.username c))
              (VBool (contains self
                        (Name (lower (default "" (Chat.username c))))))))
        (py_and (VBool (contains self (Name "me")))
           (match Message.from_user message with
            | None => VNone
            | Some from_user =>
                py_and (of_opt_bool (User.is_self from_user))
                  (py_not (of_opt_bool (Message.outgoing message)))
            end))
  end.

(** ** The [command] filter *)

(** The regular expressions of [command], each read off its source text.
    Command names and the user name are taken to be literal text ([plain]):
    the source pastes them into the pattern unescaped. *)
Module Re.

(** One pattern character against one text character, under
    [re.IGNORECASE] or not. *)
Definition chr_eq (ignorecase : bool) (a b : ascii) : bool :=
  if ignorecase then Ascii.eqb (lower_char a) (lower_char b)
  else Ascii.eqb a b.

(** A literal at the start of [s]; what follows it. *)
Fixpoint literal (ignorecase : bool) (lit s : string) : option string :=
  match lit, s with
  | EmptyString, _ => Some s
  | String a lit', String b s' =>
      if chr_eq ignorecase a b then literal ignorecase lit' s' else None
  | String _ _, EmptyString => None
  end.

(** [@?{username}] at the start of [s]: the ways it can match, in the order
    the matcher tries them (the [@] taken first, then left out). *)
Definition mention (ignorecase : bool) (username s : string) : list string :=
  match s with
  | String c s' =>
      if Ascii.eqb c at_sign
      then match literal ignorecase username s' with
           | Some r => [r]
           | None => []
           end
      else []
  | EmptyString => []
  end
  ++ match literal ignorecase username s with
     | Some r => [r]
     | None => []
     end.

(** [(?:\s|$)]: a white space character comes next, or the text ends
    (or ends after one newline, which is a white space character). *)
Definition at_boundary (s : string) : bool :=
  match s with
  | EmptyString => true
  | String c _ => is_space c
  end.

(** [re.match] of the pattern [^(?:{cmd}(?:@?{username})?)(?:\s|$)]. *)
Definition match_command (ignorecase : bool) (cmd username s : string) : bool :=
  match literal ignorecase cmd s with
  | None => false
  | Some r => existsb at_boundary (mention ignorecase username r ++ [r])
  end.

(** [\s?] *)
Definition optional_space (s : string) : string :=
  match s with
  | String c t => if is_space c then t else s
  | EmptyString => EmptyString
  end.

(** The pattern [{cmd}(?:@?{username})?\s?] at the start of [s]: what
    follows the match.  Every part after [cmd] is optional and greedy, so
    the first way [mention] offers is the one taken. *)
Definition command_token (ignorecase : bool) (cmd username s : string)
  : option string :=
  match literal ignorecase cmd s with
  | None => None
  | Some r => Some (optional_space (hd r (mention ignorecase username r)))
  end.

(** [re.sub] of that pattern by the empty string with [count=1]: the
    leftmost match is cut out. *)
Fixpoint sub_command (ignorecase : bool) (cmd username s : string) : string :=
  match command_token ignorecase cmd username s with
  | Some r => r
  | None =>
      match s with
      | EmptyString => EmptyString
      | String c t => String c (sub_command ignorecase cmd username t)
      end
  end.

(** [(.*?)(?<!\\)\1] after the opening quote [q]: the shortest run of
    characters other than a newline that is followed by [q], where the
    character before that [q] is no backslash.  [prev] is the character
    before [s].  Returns the run and what follows the closing quote. *)
Fixpoint quoted_span (q prev : ascii) (s : string) : option (string * string) :=
  match s with
  | EmptyString => None
  | String c t =>
      if Ascii.eqb c q && negb (Ascii.eqb prev backslash) then Some (EmptyString, t)
      else if Ascii.eqb c newline then None
      else match quoted_span q c t with
           | Some (inner, rest) => Some (String c inner, rest)
           | None => None
           end
  end.

(** [\S+]: the longest run without white space, and what follows. *)
Fixpoint non_space_run (s : string) : string * string :=
  match s with
  | EmptyString => (EmptyString, EmptyString)
  | String c t =>
      if is_space c then (EmptyString, s)
      else let (w, rest) := non_space_run t in (String c w, rest)
  end.

(** A match of [command_re]: group 2 of a quoted span, or group 3. *)
Inductive command_match : Type :=
| QuotedSpan (quote : ascii) (inner : string)
| Word (w : string).

(** The scan of [command_re.finditer]: at each position the quoted
    alternative is tried first, then [\S+]; where neither matches the scan
    moves on by one character.  Every step uses up a character, so a fuel of
    the length of the text is enough. *)
Fixpoint command_re_scan (fuel : nat) (s : string) : list command_match :=
  match fuel with
  | O => []
  | S fuel' =>
      match s with
      | EmptyString => []
      | String c t =>
          match (if is_quote c then quoted_span c c t else None) with
          | Some (inner, rest) => QuotedSpan c inner :: command_re_scan fuel' rest
          | None =>
              if is_space c then command_re_scan fuel' t
              else let (w, rest) := non_space_run s in
                   Word w :: command_re_scan fuel' rest
          end
      end
  end.

Definition command_re_finditer (s : string) : list command_match :=
  command_re_scan (String.length s) s.

(** [re.sub] of a backslash followed by a quote character (group 1) by
    group 1: a backslash before a quote is dropped. *)
Fixpoint unescape (s : string) : string :=
  match s with
  | EmptyString => EmptyString
  | String c t =>
      if Ascii.eqb c backslash
      then match t with
           | String d t' =>
               if is_quote d then String d (unescape t') else String c (unescape t)
           | EmptyString => String c EmptyString
           end
      else String c (unescape t)
  end.

(** [m.group(2) or m.group(3)], or the empty string when both are empty. *)
Definition group_text (m : command_match) : string :=
  match m with
  | QuotedSpan _ inner => inner
  | Word w => w
  end.

End Re.

(** [commands: str | list[str]] *)
Inductive str_arg : Type :=
| OneStr (s : string)
| ManyStr (l : list string).

Definition str_list (a : str_arg) : list string :=
  match a with
  | OneStr s => [s]
  | ManyStr l => l
  end.

Record CommandKwargs : Type := mkCommand {
  commands : gset string;
  prefixes : gset string;
  case_sensitive : bool }.

(** The arguments of a matched command: [without_command] tokenised, each
    token with its escapes removed. *)
Definition arguments (without_command : string) : list string :=
  map (fun m => Re.unescape (Re.group_text m))
      (Re.command_re_finditer without_command).

(** The inner loop [for cmd in flt.commands], over the commands in the order
    the set yields them. *)
Fixpoint try_commands (case_sensitive : bool) (username without_prefix : string)
    (cmds : list string) : option (list string) :=
  match cmds with
  | [] => None
  | cmd :: cmds' =>
      if negb (Re.match_command (negb case_sensitive) cmd username without_prefix)
      then try_commands case_sensitive username without_prefix cmds'
      else
        let without_command :=
          Re.sub_command (negb case_sensitive) cmd username without_prefix in
        Some (cmd :: arguments without_command)
  end.

(** The outer loop [for prefix in flt.prefixes]. *)
Fixpoint try_prefixes (case_sensitive : bool) (username text : string)
    (cmds : list string) (pfxs : list string) : option (list string) :=
  match pfxs with
  | [] => None
  | prefix :: pfxs' =>
      match strip_prefix prefix text with
      | None => try_prefixes case_sensitive username text cmds pfxs'
      | Some without_prefix =>
          match try_commands case_sensitive username without_prefix cmds with
          | Some found => Some found
          | None => try_prefixes case_sensitive username text cmds pfxs'
          end
      end
  end.

(** [client.me.username or ""], the user name the filter pastes into its
    patterns. *)
Definition username_of (me : User.t) : string :=
  default "" (str_or (User.username me) (Some "")).

Definition command_func (flt : CommandKwargs) (client : Client.t)
  : eval Message.t pyval :=
  fun message =>
    match Client.me client with
    | None => (message, Raise (none_has_no "username"))
    | Some me =>
        let username := username_of me in
        let text := str_or (Message.text message) (Message.caption message) in
        let message := Message.set_command None message in
        if negb (truthy (of_opt_str text)) then (message, Ret (VBool false))
        else
          match try_prefixes (case_sensitive flt) username (default "" text)
                  (elements (commands flt)) (elements (prefixes flt)) with
          | Some found =>
              (Message.set_command (Some found) message, Ret (VBool true))
          | None => (message, Ret (VBool false))
          end
    end.

Definition command_kwargs (commands : str_arg) (prefixes : option str_arg)
    (case_sensitive : bool) : CommandKwargs :=
  let commands :=
    list_to_set
      (map (fun c => if case_sensitive then c else lower c) (str_list commands)) in
  let prefixes := match prefixes with None => [] | Some a => str_list a end in
  let prefixes := match prefixes with [] => {[ "" ]} | _ => list_to_set prefixes end in
  mkCommand commands prefixes case_sensitive.

Definition command (commands : str_arg) (prefixes : option str_arg)
    (case_sensitive : bool) : Filter Message.t :=
  create command_func "func" (Some "CommandFilter")
    (command_kwargs commands prefixes case_sensitive).

(** The defaults of the signature: the prefix [/], not case sensitive. *)
Definition default_prefixes : option str_arg := Some (OneStr "/").
Definition default_case_sensitive : bool := false.

(** ** Sample inputs *)

(** A filter that counts its runs (the world is the counter), and one that
    returns a fixed value and writes nothing. *)
Definition counting (result : bool) : Filter nat :=
  mkFilter "counting" false (fun _ n => (S n, Ret (VBool result))).

Definition constant (result : pyval) : Filter nat :=
  mkFilter "constant" false (fun _ n => (n, Ret result)).

(** A client that has not started, and a started bot. *)
Definition no_client : Client.t := Client.mk None.

Definition bot_user (username : option string) : User.t :=
  User.mk 1 username (Some true) (Some true).

Definition bot_client (username : option string) : Client.t :=
  Client.mk (Some (bot_user username)).

(** A message that carries only the given text. *)
Definition text_message (t : string) : Message.t :=
  Message.mk (Some t) None None None None None None None None None None None
    None None None None None None None None.

(** A text in double quotes. *)
Definition in_quotes (s : string) : string :=
  String dquote (s +:+ String dquote EmptyString).

(** A callback query that came from an inline message: it has no [message]. *)
Definition inline_callback : Update :=
  UCallbackQuery (CallbackQuery.mk None (Some "data") None).

(** A message without text or caption whose [matches] is already set. *)
Definition sample_match : Match := mkMatch 6 8 "42".

Definition stale_message : Update :=
  UMessage (Message.set_matches (Some [sample_match]) Message.empty).

(** A pattern that never matches. *)
Definition never_matches : Pattern := mkPattern (fun _ => []).

(** A parsed photo message. *)
Definition photo_message : Message.t :=
  Message.mk None None None None None (Some enums.PHOTO)
    None None (Some (tl_object 1)) None None None None None None None None None
    None None.

(** The text [regex] matches against, for the three shapes it knows. *)
Definition selected_text (u : Update) : option string :=
  match u with
  | UMessage m => str_or (Message.text m) (Message.caption m)
  | UCallbackQuery q => CallbackQuery.data q
  | UInlineQuery q => InlineQuery.query q
  | UOther _ => None
  end.

(** A message without a sender, and one sent by the account itself. *)
Definition anonymous_message : Message.t := Message.empty.

(** A message that the user named [Bob] sent in the private chat with him. *)
Definition bob_message : Message.t :=
  Message.mk (Some "hi") None (Some (Chat.mk 9 (Some "Bob") enums.PRIVATE))
    (Some (User.mk 9 (Some "Bob") (Some false) (Some false)))
    (Some false) None None None None None None None None None None None None
    None None None.

Definition own_message : Message.t :=
  Message.mk None None None (Some (User.mk 7 None (Some true) (Some false)))
    None None None None None None None None None None None None None None
    None None.

(** ** Auxiliary predicates for the statements about [command] *)



(** The filter [command] of [start] with the defaults, and the text of the
    second example of the specification. *)
Definition start_filter : Filter Message.t :=
  command (OneStr "start") default_prefixes default_case_sensitive.


(** No character of [s] is a white space character. *)
Fixpoint no_space (s : string) : bool :=
  match s with
  | EmptyString => true
  | String c t => negb (is_space c) && no_space t
  end.

(** The last character of [prev] followed by [s]. *)
Fixpoint last_char (prev : ascii) (s : string) : ascii :=
  match s with
  | EmptyString => prev
  | String c t => last_char c t
  end.

Fixpoint has_char (x : ascii) (s : string) : bool :=
  match s with
  | EmptyString => false
  | String c t => Ascii.eqb c x || has_char x t
  end.

(** The text of the escaped-quote example. *)
Definition escaped_text : string :=
  "/start \" +:+ String dquote ("quoted\" +:+ String dquote "").

(** A compiled pattern for one or more digits, as far as the sample texts
    go: one match in [order 42], none elsewhere. *)
Definition digits : Pattern :=
  mkPattern (fun s => if String.eqb s "order 42" then [sample_match] else []).

(** A message in a private chat, as an update. *)
Definition private_message : Update :=
  UMessage
    (Message.mk (Some "hi") None (Some (Chat.mk 5 None enums.PRIVATE)) None
       None None None None None None None None None None None None None None
       None None).

(** A command message whose [command] field holds an earlier value. *)
Definition annotated_message : Message.t :=
  Message.set_command (Some ["old"]) (text_message "/start now").

(** ** Auxiliary predicates for the further properties *)

(** Some character of [s] is an upper-case letter. *)
Fixpoint has_upper (s : string) : bool :=
  match s with
  | EmptyString => false
  | String c t => is_upper c || has_upper t
  end.

(** The three chat-scope filters, called on one update. *)
Definition chat_scopes (client : Client.t) (u : Update)
  : list (Update * outcome pyval) :=
  [ call private client u; call group client u; call channel client u ].

(** How many of the outcomes are [True]. *)
Definition count_true (rs : list (Update * outcome pyval)) : nat :=
  length (List.filter (fun r => match snd r with
                                | Ret (VBool true) => true
                                | _ => false
                                end) rs).

Definition raises {A W : Type} (r : W * outcome A) : bool :=
  match snd r with Raise _ => true | Ret _ => false end.

(** A word the scanner takes as it is: not empty, no white space, no
    backslash, and no quote in front. *)
Definition bare (w : string) : bool :=
  match w with
  | EmptyString => false
  | String c _ =>
      negb (is_quote c) && no_space w && negb (has_char backslash w)
  end.

(** The words joined by single spaces. *)
Fixpoint join_words (ws : list string) : string :=
  match ws with
  | [] => EmptyString
  | [w] => w
  | w :: rest => w +:+ String " " (join_words rest)
  end.

(** The text [command_func] works on. *)
Definition command_text (m : Message.t) : string :=
  default "" (str_or (Message.text m) (Message.caption m)).

(** ** [search_messages] *)

(** [raw.functions.messages.Search], with the fields [get_chunk] passes. *)
Module Search.
Record t (Peer RawFilter : Type) : Type := mk {
  peer : Peer;
  q : string;
  filter : RawFilter;
  min_date : Z;
  max_date : Z;
  offset_id : Z;
  add_offset : Z;
  limit : Z;
  min_id : Z;
  max_id : Z;
  from_id : option Peer;
  hash : Z }.
Arguments mk {Peer RawFilter} _ _ _ _ _ _ _ _ _ _ _ _.
Arguments add_offset {Peer RawFilter} _.
Arguments limit {Peer RawFilter} _.
Arguments from_id {Peer RawFilter} _.
End Search.

(** How a generator that is run to its end stops. *)
Inductive ending : Type :=
| Returned
| Raised (e : exn).

(** What is seen of a run of the generator: the messages it yields, the
    [(offset, limit)] of every call of [get_chunk], and how it stops. *)
Record Run : Type := mkRun {
  yielded : list Message.t;
  chunk_calls : list (Z * Z);
  stopped : ending }.

(** [if from_user] for [from_user: int | str | None]. *)
Definition ident_truthy (o : option ident) : bool :=
  match o with
  | None => false
  | Some (inl z) => negb (z =? 0)%Z
  | Some (inr s) => negb (String.eqb s "")
  end.

(** [abs(limit) or (1 << 31) - 1] *)
Definition total_of (limit : Z) : Z :=
  if (Z.abs limit =? 0)%Z then (Z.shiftl 1 31 - 1)%Z else Z.abs limit.

(** The loop [for message in messages]: the messages it yields, the count
    after it, and whether it returned from the generator. *)
Fixpoint yield_messages (messages : list Message.t) (current total : Z)
  : list Message.t * Z * bool :=
  match messages with
  | [] => ([], current, false)
  | message :: rest =>
      let current := (current + 1)%Z in
      if (current >=? total)%Z then ([message], current, true)
      else
        let '(more, current, finished) := yield_messages rest current total in
        (message :: more, current, finished)
  end.

Section SearchMessages.
(** The collaborators of the method, none of them among the sources: the
    peer type and [client.resolve_peer], the filter enumeration with the raw
    filter its [value()] builds, and [client.invoke] followed by
    [utils.parse_messages]. *)
Variables Peer MessagesFilter RawFilter : Type.
Variable resolve_peer : ident -> outcome Peer.
Variable filter_value : MessagesFilter -> RawFilter.
Variable invoke : Search.t Peer RawFilter -> Z -> outcome (list Message.t).

Definition get_chunk (chat_id : ident) (query : string)
    (filter : MessagesFilter) (offset limit : Z) (from_user : option ident)
  : outcome (list Message.t) :=
  match resolve_peer chat_id with
  | Raise e => Raise e
  | Ret peer =>
      let flt := filter_value filter in
      match (if ident_truthy from_user
             then match resolve_peer (default (inl 0%Z) from_user) with
                  | Ret fp => Ret (Some fp)
                  | Raise e => Raise e
                  end
             else Ret None) with
      | Raise e => Raise e
      | Ret from_id =>
          invoke (Search.mk peer query flt 0 0 0 offset limit 0 0 from_id 0) 60
      end
  end.

(** The loop [while True] of [search_messages].  Every round that goes on
    has yielded at least one message, so [total] rounds of fuel are
    enough. *)
Fixpoint search_loop (fuel : nat) (chat_id : ident) (query : string)
    (filter : MessagesFilter) (from_user : option ident)
    (offset current total limit : Z) : option Run :=
  match fuel with
  | O => None
  | S fuel' =>
      match get_chunk chat_id query filter offset limit from_user with
      | Raise e => Some (mkRun [] [(offset, limit)] (Raised e))
      | Ret [] => Some (mkRun [] [(offset, limit)] Returned)
      | Ret messages =>
          let offset' := (offset + Z.of_nat (length messages))%Z in
          let '(ys, current', finished) :=
            yield_messages messages current total in
          if finished then Some (mkRun ys [(offset, limit)] Returned)
          else
            match search_loop fuel' chat_id query filter from_user
                    offset' current' total limit with
            | Some r =>
                Some (mkRun (ys ++ yielded r)
                        ((offset, limit) :: chunk_calls r) (stopped r))
            | None => None
            end
      end
  end.

Definition search_messages (chat_id : ident) (query : string) (offset : Z)
    (filter : MessagesFilter) (limit : Z) (from_user : option ident)
  : option Run :=
  let current := 0%Z in
  let total := total_of limit in
  let limit := Z.min 100 total in
  search_loop (Z.to_nat total) chat_id query filter from_user
    offset current total limit.

End SearchMessages.

(** ** [send_dice] *)

Module raw.
(** The update classes [send_dice] tells apart; every other class is
    [UpdateOther]. *)
Inductive Update : Type :=
| UpdateNewMessage (message : TLObject)
| UpdateNewChannelMessage (message : TLObject)
| UpdateNewScheduledMessage (message : TLObject)
| UpdateOther (class_name : string).

(** A raw user or chat: its [id], and the rest. *)
Record Entity : Type := mkEntity {
  id : Z;
  body : TLObject }.

(** [raw.types.Updates], the answer to [SendMedia]. *)
Record Updates : Type := mkUpdates {
  updates : list Update;
  users : list Entity;
  chats : list Entity }.

(** [raw.functions.messages.SendMedia] with [InputMediaDice] as media. *)
Record SendMedia (Peer Emoji ReplyTo RawMarkup : Type) : Type := mkSendMedia {
  peer : Peer;
  media_emoticon : Emoji;
  silent : option bool;
  reply_to : ReplyTo;
  random_id : Z;
  schedule_date : option Z;
  noforwards : option bool;
  reply_markup : option RawMarkup;
  message : string }.
Arguments mkSendMedia {Peer Emoji ReplyTo RawMarkup} _ _ _ _ _ _ _ _ _.
End raw.

(** [{i.id: i for i in l}]: a later entry replaces an earlier one with the
    same id. *)
Definition dict_by_id (l : list raw.Entity) : gmap Z raw.Entity :=
  foldl (fun d i => <[raw.id i := i]> d) ∅ l.

(** [x or None] for an optional boolean. *)
Definition or_none (x : option bool) : option bool :=
  match x with
  | Some true => Some true
  | _ => None
  end.

(** [isinstance(i, (UpdateNewMessage, UpdateNewChannelMessage,
    UpdateNewScheduledMessage))], with the message of such an update. *)
Definition new_message (i : raw.Update) : option TLObject :=
  match i with
  | raw.UpdateNewMessage m
  | raw.UpdateNewChannelMessage m
  | raw.UpdateNewScheduledMessage m => Some m
  | raw.UpdateOther _ => None
  end.

Definition is_scheduled (i : raw.Update) : bool :=
  match i with
  | raw.UpdateNewScheduledMessage _ => true
  | _ => false
  end.

Section SendDice.
(** The collaborators, none of them among the sources: the peer, emoji,
    reply header, date and markup types; [client.resolve_peer];
    [utils.get_reply_head_fm]; the value [self.rnd_id()] returns;
    [utils.datetime_to_timestamp]; [reply_markup.write]; [client.invoke];
    and [types.Message._parse]. *)
Variables Peer Emoji ReplyTo Datetime Markup RawMarkup : Type.
Variable resolve_peer : ident -> outcome Peer.
Variable get_reply_head_fm : option Z -> option Z -> ReplyTo.
Variable rnd_id : Z.
Variable datetime_to_timestamp : option Datetime -> option Z.
Variable write : Markup -> outcome RawMarkup.
Variable invoke :
  raw.SendMedia Peer Emoji ReplyTo RawMarkup -> outcome raw.Updates.
Variable parse :
  TLObject -> gmap Z raw.Entity -> gmap Z raw.Entity -> bool -> Message.t.

(** [await reply_markup.write(self) if reply_markup else None] *)
Definition write_optional (reply_markup : option Markup)
  : outcome (option RawMarkup) :=
  match reply_markup with
  | Some k => match write k with
              | Ret w => Ret (Some w)
              | Raise e => Raise e
              end
  | None => Ret None
  end.

(** The loop [for i in r.updates] with its [return]. *)
Fixpoint first_new_message (users chats : gmap Z raw.Entity)
    (l : list raw.Update) : option Message.t :=
  match l with
  | [] => None
  | i :: rest =>
      match new_message i with
      | Some m => Some (parse m users chats (is_scheduled i))
      | None => first_new_message users chats rest
      end
  end.

Definition send_dice (chat_id : ident) (emoji : Emoji)
    (message_thread_id : option Z) (disable_notification : option bool)
    (reply_to_message_id : option Z) (schedule_date : option Datetime)
    (protect_content : option bool) (reply_markup : option Markup)
  : outcome (option Message.t) :=
  let reply_to := get_reply_head_fm message_thread_id reply_to_message_id in
  match resolve_peer chat_id with
  | Raise e => Raise e
  | Ret peer =>
      match write_optional reply_markup with
      | Raise e => Raise e
      | Ret markup =>
          match invoke (raw.mkSendMedia peer emoji (or_none disable_notification)
                          reply_to rnd_id (datetime_to_timestamp schedule_date)
                          protect_content markup "") with
          | Raise e => Raise e
          | Ret r =>
              Ret (first_new_message (dict_by_id (raw.users r))
                     (dict_by_id (raw.chats r)) (raw.updates r))
          end
      end
  end.

End SendDice.

(** ** [on_raw_update] *)

Module Handlers.
(** [hydrogram.handlers.RawUpdateHandler(func)]: the handler keeps the
    function it wraps, known here by its name. *)
Record RawUpdateHandler : Type := mkHandler { callback : string }.

(** A function object: its name and, once it has one, its [handlers]
    attribute. *)
Record Function : Type := mkFunction {
  name : string;
  handlers : option (list (RawUpdateHandler * Z)) }.

(** The [self] of the decorator: a client, seen as the calls of
    [add_handler] made on it so far, or anything else. *)
Inductive Self : Type :=
| AClient (added : list (RawUpdateHandler * Z))
| NotAClient.

(** [on_raw_update(self, group)(func)]: the [self] and the function after
    the call; the function is what the decorator returns. *)
Definition on_raw_update (self : Self) (group : Z) (func : Function)
  : Self * Function :=
  match self with
  | AClient added =>
      (AClient (added ++ [(mkHandler (name func), group)]), func)
  | NotAClient =>
      let old := match handlers func with
                 | None => []
                 | Some l => l
                 end in
      (NotAClient,
       mkFunction (name func) (Some (old ++ [(mkHandler (name func), group)])))
  end.

(** Decorators stacked on one function, applied from the first group of the
    list to the last. *)
Definition decorate (self : Self) (groups : list Z) (func : Function)
  : Self * Function :=
  foldl (fun st g => on_raw_update (fst st) g (snd st)) (self, func) groups.
End Handlers.

(** ** Sample collaborators *)

(** A server that pages through five results, with a peer resolution that
    always succeeds. *)
Definition sample_store : list Message.t :=
  map text_message ["a"; "b"; "c"; "d"; "e"].

Definition paging_invoke (req : Search.t unit unit) (_ : Z)
  : outcome (list Message.t) :=
  Ret (take (Z.to_nat (Search.limit req))
         (drop (Z.to_nat (Search.add_offset req)) sample_store)).

Definition sample_search (offset limit : Z) : option Run :=
  search_messages unit unit unit (fun _ => Ret tt) (fun f => f) paging_invoke
    (Name "me") "" offset tt limit None.

(** An answer to [send_dice]: a status update, then the scheduled message,
    then the same message again as a channel message; two users share an
    id. *)
Definition dice_answer : raw.Updates :=
  raw.mkUpdates
    [ raw.UpdateOther "UpdateMessageID";
      raw.UpdateNewScheduledMessage (tl_object 11);
      raw.UpdateNewChannelMessage (tl_object 12) ]
    [ raw.mkEntity 7 (tl_object 1); raw.mkEntity 7 (tl_object 2) ]
    [].

(** A parser that keeps only whether the message is scheduled, as the
    [outgoing] flag of an otherwise empty message. *)
Definition flag_parse (_ : TLObject) (_ _ : gmap Z raw.Entity) (scheduled : bool)
  : Message.t :=
  Message.mk None None None None (Some scheduled) None None None None None
    None None None None None None None None None None.

Definition sample_send_dice : outcome (option Message.t) :=
  send_dice unit unit unit unit unit unit (fun _ => Ret tt) (fun _ _ => tt) 5
    (fun _ => None) (fun _ => Ret tt) (fun _ => Ret dice_answer) flag_parse
    (Id 1) tt None (Some false) None None None None.

(** What the scanner may give: a word is not empty and has no white space;
    a quoted span was opened by a quote and has no newline. *)
Definition token_ok (m : Re.command_match) : Prop :=
  match m with
  | Re.Word w => w <> "" /\ no_space w = true
  | Re.QuotedSpan q inner => is_quote q = true /\ has_char newline inner = false
  end.

(** * Properties *)

(** ** Combinators *)

Section CombinatorFacts.
Context {W : Type}.
Implicit Types (P Q : Filter W) (client : Client.t) (w : W) (x : pyval).

(** Both dispatch paths run the operand to its end. *)
Lemma dispatch_call P client : dispatch P client = call P client.
Proof. unfold dispatch, await, run_in_executor. by destruct (filter_coroutine P). Qed.

Lemma invert_call P client w :
  call (InvertFilter P) client w =
  match call P client w with
  | (w', Ret x) => (w', Ret (VBool (negb (truthy x))))
  | (w', Raise e) => (w', Raise e)
  end.
Proof.
  cbn [call InvertFilter]. unfold bind. rewrite dispatch_call.
  by destruct (call P client w) as [w' [x | e]].
Qed.

Lemma and_call P Q client w :
  call (AndFilter P Q) client w =
  match call P client w with
  | (w', Ret x) =>
      if truthy x
      then match call Q client w' with
           | (w'', Ret y) => (w'', Ret (py_and x y))
           | (w'', Raise e) => (w'', Raise e)
           end
      else (w', Ret (VBool false))
  | (w', Raise e) => (w', Raise e)
  end.
Proof.
  cbn [call AndFilter]. unfold bind. rewrite !dispatch_call.
  destruct (call P client w) as [w' [x | e]]; [| done].
  destruct (truthy x); cbn; [| done].
  by destruct (call Q client w') as [w'' [y | e]].
Qed.

Lemma or_call P Q client w :
  call (OrFilter P Q) client w =
  match call P client w with
  | (w', Ret x) =>
      if truthy x then (w', Ret (VBool true))
      else match call Q client w' with
           | (w'', Ret y) => (w'', Ret (py_or x y))
           | (w'', Raise e) => (w'', Raise e)
           end
  | (w', Raise e) => (w', Raise e)
  end.
Proof.
  cbn [call OrFilter]. unfold bind. rewrite !dispatch_call.
  destruct (call P client w) as [w' [x | e]]; [| done].
  destruct (truthy x); cbn; [done |].
  by destruct (call Q client w') as [w'' [y | e]].
Qed.

(** C4. Whenever the wrapped filter returns (does not raise), [InvertFilter]
    returns the negation of the truth value of what it returned, and leaves
    the world as the wrapped filter left it. *)
Theorem invert_negates P client w w' x :
  call P client w = (w', Ret x) ->
  call (InvertFilter P) client w = (w', Ret (VBool (negb (truthy x)))).
Proof. intros HP. by rewrite invert_call, HP. Qed.

(** An exception of the wrapped filter passes through [InvertFilter]. *)
Lemma invert_raises P client w w' e :
  call P client w = (w', Raise e) ->
  call (InvertFilter P) client w = (w', Raise e).
Proof. intros HP. by rewrite invert_call, HP. Qed.

(** C3. Short circuit.  For every right operand [Q] whatsoever:
    - when [P] returns a falsy value, [AndFilter P Q] returns [False] and the
      world is exactly the one [P] left, so [Q] was not run;
    - when [P] returns a truthy value, [OrFilter P Q] returns [True] and the
      world is exactly the one [P] left;
    - otherwise [Q] is run from the world [P] left, after [P] has returned,
      and its outcome is the outcome of the combinator;
    - when [P] raises, the exception is the outcome and [Q] is not run. *)
Theorem short_circuit P Q client w :
  (forall w' x, call P client w = (w', Ret x) -> truthy x = false ->
     call (AndFilter P Q) client w = (w', Ret (VBool false)))
  /\ (forall w' x, call P client w = (w', Ret x) -> truthy x = true ->
     call (OrFilter P Q) client w = (w', Ret (VBool true)))
  /\ (forall w' x, call P client w = (w', Ret x) -> truthy x = true ->
     call (AndFilter P Q) client w = call Q client w')
  /\ (forall w' x, call P client w = (w', Ret x) -> truthy x = false ->
     call (OrFilter P Q) client w = call Q client w')
  /\ (forall w' e, call P client w = (w', Raise e) ->
     call (AndFilter P Q) client w = (w', Raise e)
     /\ call (OrFilter P Q) client w = (w', Raise e)).
Proof.
  split; [| split; [| split; [| split]]].
  - intros w' x HP Hx. by rewrite and_call, HP, Hx.
  - intros w' x HP Hx. by rewrite or_call, HP, Hx.
  - intros w' x HP Hx. rewrite and_call, HP, Hx. unfold py_and. rewrite Hx.
    by destruct (call Q client w') as [w'' [y | e]].
  - intros w' x HP Hx. rewrite or_call, HP, Hx. unfold py_or. rewrite Hx.
    by destruct (call Q client w') as [w'' [y | e]].
  - intros w' e HP. by rewrite and_call, or_call, HP.
Qed.

End CombinatorFacts.

Lemma short_circuit_witness :
  call (constant VNone) no_client 0 = (0, Ret VNone)
  /\ call (counting true) no_client 0 = (1, Ret (VBool true))
  /\ call (AndFilter (constant VNone) (counting true)) no_client 0
     = (0, Ret (VBool false))
  /\ call (OrFilter (constant (VStr "x")) (counting true)) no_client 0
     = (0, Ret (VBool true))
  /\ call (AndFilter (constant (VStr "x")) (counting true)) no_client 0
     = (1, Ret (VBool true)).
Proof.
  split; [reflexivity |]. split; [reflexivity |].
  split.
  { apply (proj1 (short_circuit (constant VNone) (counting true) no_client 0)
             0 VNone); reflexivity. }
  split.
  { apply (proj1 (proj2 (short_circuit (constant (VStr "x")) (counting true)
                           no_client 0)) 0 (VStr "x")); reflexivity. }
  rewrite (proj1 (proj2 (proj2 (short_circuit (constant (VStr "x"))
                                  (counting true) no_client 0))) 0 (VStr "x"));
    reflexivity.
Defined.

Lemma invert_negates_witness :
  call (constant (VStr "x")) no_client 7 = (7, Ret (VStr "x"))
  /\ call (InvertFilter (constant (VStr "x"))) no_client 7 = (7, Ret (VBool false)).
Proof.
  split; [reflexivity |].
  apply (invert_negates (constant (VStr "x")) no_client 7 7 (VStr "x")).
  reflexivity.
Defined.

(** ** Chat-scope filters *)

(** For an update class the filter does not recognise, the three chat-scope
    filters and [regex] raise a [ValueError] and leave the update as it was.
    An inline query is such a class for the chat-scope filters. *)
Lemma unsupported_shape_raises (flt : RegexKwargs) client u :
  unrecognised u \/ (exists q, u = UInlineQuery q) ->
  (exists msg, call private client u = (u, Raise (ValueError msg)))
  /\ (exists msg, call group client u = (u, Raise (ValueError msg)))
  /\ (exists msg, call channel client u = (u, Raise (ValueError msg)))
  /\ (unrecognised u ->
      exists msg, regex_func flt client u = (u, Raise (ValueError msg))).
Proof.
  intros [Hu | [q ->]].
  - destruct u; try done. repeat split; try intros _; eexists; reflexivity.
  - repeat split; try (eexists; reflexivity). intros [].
Qed.

Lemma unsupported_shape_raises_witness :
  exists msg,
    call private no_client (UOther "ChosenInlineResult")
    = (UOther "ChosenInlineResult", Raise (ValueError msg)).
Proof.
  apply (proj1 (unsupported_shape_raises (mkRegex never_matches) no_client
                  (UOther "ChosenInlineResult") (or_introl I))).
Defined.

(** A message without a chat, and a callback query whose message has no chat,
    are answered [False] by the chat-scope filters. *)
Lemma chat_scope_without_chat client u :
  scope_chat "Private" u = Ret None ->
  call private client u = (u, Ret (VBool false))
  /\ call group client u = (u, Ret (VBool false))
  /\ call channel client u = (u, Ret (VBool false)).
Proof.
  intros H.
  assert (Hs : forall l, scope_chat l u = Ret None).
  { intros l. destruct u as [m | q | q | n]; cbn in *; try done;
      try (destruct (CallbackQuery.message q); done). }
  cbn. unfold private_filter, group_filter, channel_filter.
  by rewrite !Hs.
Qed.

Lemma chat_scope_without_chat_witness :
  call private no_client (UMessage Message.empty)
  = (UMessage Message.empty, Ret (VBool false)).
Proof.
  apply (proj1 (chat_scope_without_chat no_client (UMessage Message.empty) eq_refl)).
Defined.

(** The chat-scope filters on a chat that is there: the test of its type. *)
Lemma chat_scope_with_chat client u c :
  scope_chat "Private" u = Ret (Some c) ->
  call private client u
  = (u, Ret (VBool (match Chat.type c with
                    | enums.PRIVATE | enums.BOT => true
                    | _ => false
                    end)))
  /\ call group client u
     = (u, Ret (VBool (match Chat.type c with
                       | enums.GROUP | enums.SUPERGROUP => true
                       | _ => false
                       end)))
  /\ call channel client u
     = (u, Ret (VBool (match Chat.type c with
                       | enums.CHANNEL => true
                       | _ => false
                       end))).
Proof.
  intros H.
  assert (Hs : forall l, scope_chat l u = Ret (Some c)).
  { intros l. destruct u as [m | q | q | n]; cbn in *; try done;
      try (destruct (CallbackQuery.message q); done). }
  cbn. unfold private_filter, group_filter, channel_filter.
  rewrite !Hs. unfold type_in, py_bool. cbn.
  destruct (Chat.type c); repeat split.
Qed.

Lemma chat_scope_with_chat_witness :
  call private no_client private_message = (private_message, Ret (VBool true))
  /\ call group no_client private_message = (private_message, Ret (VBool false)).
Proof.
  destruct (chat_scope_with_chat no_client private_message
              (Chat.mk 5 None enums.PRIVATE) eq_refl) as [H1 [H2 _]].
  split; [exact H1 | exact H2].
Defined.

(** C7, at the input where the code departs from it.  A callback query is a
    recognised shape; when its [message] is [None] the three chat-scope
    filters raise an [AttributeError] instead of answering [False]. *)
Theorem chat_scope_inline_callback_raises client :
  call private client inline_callback
  = (inline_callback, Raise (none_has_no "chat"))
  /\ call group client inline_callback
     = (inline_callback, Raise (none_has_no "chat"))
  /\ call channel client inline_callback
     = (inline_callback, Raise (none_has_no "chat")).
Proof. repeat split. Qed.

(** ** The media filter *)

Lemma parsed_media_present m :
  present (parsed_media m) = existsb present (media_fields m).
Proof.
  unfold parsed_media, media_fields. cbn [existsb].
  destruct (Message.audio m), (Message.document m), (Message.photo m),
    (Message.sticker m), (Message.video m), (Message.animation m),
    (Message.voice m), (Message.video_note m), (Message.contact m),
    (Message.location m), (Message.venue m), (Message.poll m); reflexivity.
Qed.

(** C8. On a message as the parser builds it, [media_filter] returns [True]
    exactly when one of the twelve media fields is set, and [False] when all
    twelve are absent. *)
Theorem media_filter_iff m :
  media_parsed m ->
  (media_filter m = VBool true <->
     exists field, In field (media_fields m) /\ present field = true)
  /\ (Forall (fun field => field = None) (media_fields m) ->
      media_filter m = VBool false)
  /\ is_bool (media_filter m) = true.
Proof.
  intros Hm. unfold media_filter. rewrite Hm, parsed_media_present.
  split; [| split; [| done]].
  - split.
    + intros Hex. apply (existsb_exists present). congruence.
    + intros Hex. apply (existsb_exists present) in Hex. by rewrite Hex.
  - intros Hall. f_equal. apply not_true_is_false. intros Hex.
    apply existsb_exists in Hex as [field [Hin Hp]].
    rewrite Forall_forall in Hall. rewrite (Hall field) in Hp; [done |].
    by apply list_elem_of_In.
Qed.

Lemma media_filter_iff_witness :
  media_parsed photo_message
  /\ media_filter photo_message = VBool true
  /\ In (Message.photo photo_message) (media_fields photo_message).
Proof.
  split; [reflexivity |]. split; [| cbn; tauto].
  apply (proj1 (media_filter_iff photo_message eq_refl)).
  exists (Some (tl_object 1)). split; [cbn; tauto | reflexivity].
Defined.

(** Each of the twelve fields, set alone on a parsed message, is enough. *)
Lemma media_filter_single m :
  media_parsed m ->
  Exists (fun field => present field = true) (media_fields m) ->
  media_filter m = VBool true.
Proof.
  intros Hm Hex. unfold media_filter. rewrite Hm, parsed_media_present.
  f_equal. apply (existsb_exists present).
  apply Exists_exists in Hex as [field [Hin Hp]].
  exists field. split; [by apply list_elem_of_In | done].
Qed.

(** ** The [regex] filter *)

(** On an update whose [matches] is [None] when the filter is called:
    without a text to match the filter answers [False] and writes nothing;
    with one it stores all matches, or [None] when there is none, and answers
    whether there was a match. *)
Lemma regex_on_fresh_update (flt : RegexKwargs) client u :
  ~ unrecognised u ->
  get_matches u = None ->
  regex_func flt client u =
  match selected_text u with
  | Some (String c s) =>
      let found := finditer (p flt) (String c s) in
      (set_matches (list_or_none found) u,
       Ret (VBool (match found with [] => false | _ => true end)))
  | _ => (u, Ret (VBool false))
  end.
Proof.
  intros Hu Hm. unfold regex_func.
  assert (Hset : forall v, get_matches (set_matches v u) = v)
    by (intros v; destruct u; cbn in *; tauto).
  destruct u as [m | q | q | n]; cbn [selected_text]; [| | | by destruct Hu].
  - destruct (str_or (Message.text m) (Message.caption m)) as [[| c s] |].
    all: cbn [truthy of_opt_str String.eqb negb default]; rewrite ?Hset, ?Hm; try done.
    unfold id. by destruct (finditer (p flt) (String c s)).
  - destruct (CallbackQuery.data q) as [[| c s] |].
    all: cbn [truthy of_opt_str String.eqb negb default]; rewrite ?Hset, ?Hm; try done.
    unfold id. by destruct (finditer (p flt) (String c s)).
  - destruct (InlineQuery.query q) as [[| c s] |].
    all: cbn [truthy of_opt_str String.eqb negb default]; rewrite ?Hset, ?Hm; try done.
    unfold id. by destruct (finditer (p flt) (String c s)).
Qed.

Lemma regex_on_fresh_update_witness :
  regex_func (mkRegex digits) no_client (UMessage (text_message "order 42"))
  = (UMessage (Message.set_matches (Some [sample_match]) (text_message "order 42")),
     Ret (VBool true))
  /\ regex_func (mkRegex digits) no_client (UMessage (text_message "no digits"))
     = (UMessage (text_message "no digits"), Ret (VBool false)).
Proof.
  split.
  - rewrite (regex_on_fresh_update (mkRegex digits) no_client
               (UMessage (text_message "order 42")) (fun H => H) eq_refl).
    reflexivity.
  - rewrite (regex_on_fresh_update (mkRegex digits) no_client
               (UMessage (text_message "no digits")) (fun H => H) eq_refl).
    reflexivity.
Defined.


(** The same from the constructor, for any way of compiling patterns. *)
Lemma stale_matches_from_constructor re_compile pattern flags client :
  call (regex re_compile pattern flags) client stale_message
  = (stale_message, Ret (VBool true)).
Proof. reflexivity. Qed.

(** C9. Given a compiled pattern, [regex] stores that very pattern and
    never looks at [flags]: the filters built with any two flag values are
    the same filter, and so agree on every client and update. *)
Theorem regex_compiled_ignores_flags re_compile (c : Pattern) (flags1 flags2 : Z) :
  p (regex_kwargs re_compile (Compiled c) flags1) = c
  /\ regex re_compile (Compiled c) flags1 = regex re_compile (Compiled c) flags2
  /\ (forall client u,
        call (regex re_compile (Compiled c) flags1) client u
        = call (regex re_compile (Compiled c) flags2) client u)
  /\ (forall client u,
        call (regex re_compile (Compiled c) flags1) client u
        = regex_func (mkRegex c) client u).
Proof. repeat split. Qed.

(** ** The membership filters *)

Lemma elem_of_normalized (l : list ident) (x : ident) :
  x ∈ (list_to_set (map normalize l) : gset ident)
  <-> exists u, u ∈ l /\ x = normalize u.
Proof.
  rewrite elem_of_list_to_set, list_elem_of_In, in_map_iff.
  split; intros [u [H1 H2]]; exists u.
  - by rewrite list_elem_of_In.
  - by rewrite <- list_elem_of_In.
Qed.

Lemma normalize_cases (u : ident) :
  match u with
  | inl z => normalize u = Id z
  | inr s =>
      (s = "me" \/ s = "self" -> normalize u = Name "me")
      /\ (s <> "me" -> s <> "self" ->
          normalize u = Name (strip at_sign (lower s)))
  end.
Proof.
  destruct u as [z | s]; [done |]. cbn. split.
  - by intros [-> | ->].
  - intros H1 H2.
    destruct (String.eqb_spec s "me"); [done |].
    by destruct (String.eqb_spec s "self").
Qed.

(** [lstrip] takes away a run of the stripped character, and nothing else;
    what it leaves does not start with that character. *)
Lemma lstrip_spec x s :
  exists k, s = Nat.iter k (String x) (lstrip x s)
            /\ match lstrip x s with
               | String c _ => c <> x
               | EmptyString => True
               end.
Proof.
  induction s as [| c t [k [IH1 IH2]]]; [by exists 0 |].
  cbn [lstrip]. destruct (Ascii.eqb_spec c x) as [-> | Hne].
  - exists (S k). split; [| done].
    change (Nat.iter (S k) (String x) (lstrip x t))
      with (String x (Nat.iter k (String x) (lstrip x t))).
    by f_equal.
  - by exists 0.
Qed.

(** What the constructors do.  The normalisation (integers unchanged; the
    strings [me] and [self] mapped to [me]; any other string lower-cased and
    stripped of [@] at both ends) is applied to every element given to the
    constructor of [user] and of [chat], so that [user] of [@Alice], [123]
    and [me] is exactly the set of [alice], [123] and [me].  The set methods
    are the inherited ones: [add] and [update] store what they are given. *)
Theorem membership_normalised_at_construction :
  (forall users x,
      x ∈ user users <-> exists u, u ∈ ident_list users /\ x = normalize u)
  /\ (forall chats x,
      x ∈ chat chats <-> exists u, u ∈ ident_list chats /\ x = normalize u)
  /\ user (ManyIdents [Name "@Alice"; Id 123; Name "me"])
     = {[ Name "alice"; Id 123; Name "me" ]}
  /\ (forall z, normalize (Id z) = Id z)
  /\ normalize (Name "me") = Name "me"
  /\ normalize (Name "self") = Name "me"
  /\ (forall s, s <> "me" -> s <> "self" ->
        normalize (Name s) = Name (strip at_sign (lower s)))
  /\ (forall x self y, y ∈ set_add x self <-> y = x \/ y ∈ self)
  /\ (forall xs self y, y ∈ set_update xs self <-> y ∈ xs \/ y ∈ self).
Proof.
  split; [intros; apply elem_of_normalized |].
  split; [intros; apply elem_of_normalized |].
  split.
  { unfold user. cbn [ident_list map].
    change (normalize (Name "@Alice")) with (Name "alice").
    change (normalize (Id 123)) with (Id 123).
    change (normalize (Name "me")) with (Name "me").
    set_solver. }
  split; [done |]. split; [done |]. split; [done |].
  split; [intros s; apply (normalize_cases (inr s)) |].
  split; [intros; unfold set_add; set_solver |].
  intros; unfold set_update; set_solver.
Qed.

(** [add] stores [@Bob] as it is, and the normal form [bob] is not in the
    set; and the constructor strips [@] at the end of a name too. *)
Lemma add_stores_unnormalised :
  Name "@Bob" ∈ set_add (Name "@Bob") (user NoIdent)
  /\ normalize (Name "@Bob") = Name "bob"
  /\ (Name "bob" ∉ set_add (Name "@Bob") (user NoIdent))
  /\ user (OneIdent (Name "Bob@")) = {[ Name "bob" ]}.
Proof.
  split; [unfold set_add; set_solver |].
  split; [reflexivity |].
  split.
  - unfold set_add, user. cbn [ident_list map list_to_set].
    intros H. apply elem_of_union in H as [H | H].
    + apply elem_of_singleton in H. discriminate H.
    + by apply not_elem_of_empty in H.
  - unfold user. cbn [ident_list map].
    change (normalize (Name "Bob@")) with (Name "bob"). set_solver.
Qed.

(** C5, at the input where the code departs from it.  The constructors
    normalise what they are given, and [__call__] looks a user name up in
    lower case; [add] and [update] are the inherited set methods, which the
    class documentation offers for changing the container, and they store
    [@Bob] as it is.  So on a message of the user (in the chat) named [Bob]
    the filter built from [@Bob] answers [True], and the filter that was
    given [@Bob] through [add] or [update] answers [False]. *)
Theorem add_bypasses_normalisation client :
  user (OneIdent (Name "@Bob")) = {[ Name "bob" ]}
  /\ set_add (Name "@Bob") (user NoIdent) = {[ Name "@Bob" ]}
  /\ set_update [Name "@Bob"] (user NoIdent) = {[ Name "@Bob" ]}
  /\ user_call (user (OneIdent (Name "@Bob"))) client bob_message = VBool true
  /\ user_call (set_add (Name "@Bob") (user NoIdent)) client bob_message
     = VBool false
  /\ user_call (set_update [Name "@Bob"] (user NoIdent)) client bob_message
     = VBool false
  /\ chat_call (chat (OneIdent (Name "@Bob"))) client bob_message = VBool true
  /\ chat_call (set_add (Name "@Bob") (chat NoIdent)) client bob_message
     = VBool false.
Proof.
  assert (Hnew : user (OneIdent (Name "@Bob")) = {[ Name "bob" ]}).
  { unfold user. cbn [ident_list map].
    change (normalize (Name "@Bob")) with (Name "bob"). set_solver. }
  assert (Hadd : set_add (Name "@Bob") (user NoIdent) = {[ Name "@Bob" ]}).
  { unfold set_add, user. cbn [ident_list map list_to_set]. set_solver. }
  assert (Hupd : set_update [Name "@Bob"] (user NoIdent) = {[ Name "@Bob" ]}).
  { unfold set_update, user. cbn [ident_list map list_to_set]. set_solver. }
  change (chat (OneIdent (Name "@Bob"))) with (user (OneIdent (Name "@Bob"))).
  change (chat NoIdent) with (user NoIdent).
  rewrite Hnew, Hadd, Hupd.
  unfold user_call, chat_call, bob_message.
  cbn [Message.from_user Message.chat Message.outgoing User.id User.username
       User.is_self Chat.id Chat.username default]. unfold id.
  assert (Hin : forall x y : ident, contains {[ x ]} y = bool_decide (y = x)).
  { intros x y. unfold contains. apply bool_decide_ext.
    by rewrite elem_of_singleton. }
  rewrite !Hin.
  repeat split.
Qed.

(** C6, at the input where the code departs from it.  Without a sender
    (without a chat) the membership filters return the [None] they read, which
    is no boolean; so does [outgoing_filter] when [outgoing] is unset. *)
Theorem membership_returns_none (self : gset ident) client :
  user_call self client anonymous_message = VNone
  /\ chat_call self client anonymous_message = VNone
  /\ outgoing_filter anonymous_message = VNone
  /\ is_bool VNone = false.
Proof. repeat split. Qed.

(** With the sender there, [user] returns a boolean as long as [is_self] is
    one and the user name is not the empty string. *)
Lemma user_call_bool (self : gset ident) client m u b :
  Message.from_user m = Some u ->
  User.is_self u = Some b ->
  User.username u <> Some "" ->
  is_bool (user_call self client m) = true.
Proof.
  intros Hu Hs Hn. unfold user_call. rewrite Hu, Hs.
  destruct (contains self (Id (User.id u))); [done |].
  destruct (User.username u) as [[| c n] |]; [done | |].
  - cbn. destruct (contains self (Name _)); [done |].
    by destruct (contains self (Name "me")).
  - cbn. by destruct (contains self (Name "me")).
Qed.

(** The stateless filters of the catalog that wrap their value in [bool]
    return a boolean. *)
Lemma catalog_bool m :
  Forall (fun f : Message.t -> pyval => is_bool (f m) = true)
    [ all_filter; me_filter; bot_filter; incoming_filter; text_filter;
      caption_filter; audio_filter; document_filter; photo_filter;
      sticker_filter; animation_filter; video_filter; voice_filter;
      video_note_filter; contact_filter; location_filter; venue_filter;
      poll_filter; media_filter ].
Proof. repeat constructor. Qed.

(** ** The self sentinel *)

Lemma lower_me s : lower s = "me" -> normalize (Name s) = Name "me".
Proof.
  intros H. cbn.
  destruct (String.eqb s "me" || String.eqb s "self"); [done |].
  by rewrite H.
Qed.

Lemma singleton_set (x : ident) : (list_to_set [x] : gset ident) = {[ x ]}.
Proof. cbn. by rewrite (right_id_L ∅ (∪)). Qed.

(** C10. Only the exact strings [me] and [self] are mapped to [me].  A
    string that differs from [self] in letter case only is stored as [self]:
    the set built from it does not hold [me], so in the call the operand of
    the self test is [False] whoever the sender is.  A string that lower-cases
    to [me] is stored as [me]. *)
Theorem self_sentinel_is_case_exact (s : string) :
  (lower s = "self" -> s <> "self" ->
     normalize (Name s) = Name "self"
     /\ user (OneIdent (Name s)) = {[ Name "self" ]}
     /\ chat (OneIdent (Name s)) = {[ Name "self" ]}
     /\ contains (user (OneIdent (Name s))) (Name "me") = false
     /\ (forall client m,
           user_call (user (OneIdent (Name s))) client m =
           match Message.from_user m with
           | None => VNone
           | Some u =>
               py_or
                 (py_and (of_opt_str (User.username u))
                    (VBool (String.eqb (lower (default "" (User.username u)))
                              "self")))
                 (VBool false)
           end)
     /\ (forall client m,
           chat_call (chat (OneIdent (Name s))) client m =
           match Message.chat m with
           | None => VNone
           | Some c =>
               py_or
                 (py_and (of_opt_str (Chat.username c))
                    (VBool (String.eqb (lower (default "" (Chat.username c)))
                              "self")))
                 (VBool false)
           end))
  /\ (lower s = "me" ->
      normalize (Name s) = Name "me"
      /\ user (OneIdent (Name s)) = {[ Name "me" ]}
      /\ chat (OneIdent (Name s)) = {[ Name "me" ]}
      /\ contains (user (OneIdent (Name s))) (Name "me") = true).
Proof.
  split.
  - intros Hl Hne.
    assert (Hn : normalize (Name s) = Name "self").
    { cbn. destruct (String.eqb_spec s "me") as [-> | _]; [discriminate Hl |].
      destruct (String.eqb_spec s "self") as [-> | _]; [done |].
      by rewrite Hl. }
    assert (Hu : user (OneIdent (Name s)) = {[ Name "self" ]}).
    { unfold user. cbn [ident_list map]. rewrite Hn. apply singleton_set. }
    assert (Hc : chat (OneIdent (Name s)) = {[ Name "self" ]}).
    { unfold chat. cbn [ident_list map]. rewrite Hn. apply singleton_set. }
    assert (Hid : forall z, contains {[ Name "self" ]} (Id z) = false).
    { intros z. apply bool_decide_eq_false. rewrite elem_of_singleton.
      discriminate. }
    assert (Hme : contains {[ Name "self" ]} (Name "me") = false).
    { apply bool_decide_eq_false. rewrite elem_of_singleton. discriminate. }
    assert (Hname : forall n, contains {[ Name "self" ]} (Name n)
                              = String.eqb n "self").
    { intros n. unfold contains.
      destruct (String.eqb_spec n "self") as [-> | Hn'].
      - apply bool_decide_eq_true. by apply elem_of_singleton.
      - apply bool_decide_eq_false. rewrite elem_of_singleton.
        intros [= ?]. done. }
    split; [done |]. split; [done |]. split; [done |].
    split; [by rewrite Hu |].
    split.
    + intros client m. unfold user_call. rewrite Hu.
      destruct (Message.from_user m) as [u |]; [| done].
      rewrite Hid, Hme, Hname. cbn [py_or py_and truthy].
      reflexivity.
    + intros client m. unfold chat_call. rewrite Hc.
      destruct (Message.chat m) as [c |]; [| done].
      rewrite Hid, Hme, Hname. cbn [py_or py_and truthy].
      reflexivity.
  - intros Hl.
    assert (Hn := lower_me s Hl).
    assert (Hu : user (OneIdent (Name s)) = {[ Name "me" ]}).
    { unfold user. cbn [ident_list map]. rewrite Hn. apply singleton_set. }
    split; [done |]. split; [done |].
    split; [unfold chat; cbn [ident_list map]; rewrite Hn; apply singleton_set |].
    rewrite Hu. apply bool_decide_eq_true. by apply elem_of_singleton.
Qed.

Lemma self_sentinel_is_case_exact_witness :
  normalize (Name "Self") = Name "self"
  /\ contains (user (OneIdent (Name "SELF"))) (Name "me") = false
  /\ user_call (user (OneIdent (Name "Self"))) no_client own_message = VBool false
  /\ normalize (Name "Me") = Name "me"
  /\ contains (user (OneIdent (Name "ME"))) (Name "me") = true.
Proof.
  split.
  { apply (proj1 (self_sentinel_is_case_exact "Self")); [reflexivity | discriminate]. }
  split.
  { apply (proj1 (self_sentinel_is_case_exact "SELF")); [reflexivity | discriminate]. }
  split.
  { rewrite (proj1 (proj2 (proj2 (proj2 (proj2
      (proj1 (self_sentinel_is_case_exact "Self") eq_refl
         ltac:(discriminate))))))).
    reflexivity. }
  split.
  { apply (proj2 (self_sentinel_is_case_exact "Me")). reflexivity. }
  apply (proj2 (self_sentinel_is_case_exact "ME")). reflexivity.
Defined.

(** ** The [command] filter *)

(** *** Characters *)

Ltac each_char c :=
  destruct c as [[] [] [] [] [] [] [] []]; vm_compute; reflexivity.


Lemma at_sign_lower c : Ascii.eqb (lower_char c) at_sign = Ascii.eqb c at_sign.
Proof. each_char c. Qed.

Lemma lower_char_idem c : lower_char (lower_char c) = lower_char c.
Proof. each_char c. Qed.



Lemma lower_idem s : lower (lower s) = lower s.
Proof. induction s as [| c t IH]; [done |]. cbn. by rewrite lower_char_idem, IH. Qed.







(** *** Literals *)



(** *** The scanner *)

Lemma quoted_span_shorter q prev s inner rest :
  Re.quoted_span q prev s = Some (inner, rest) ->
  String.length rest < String.length s.
Proof.
  revert prev inner. induction s as [| c t IH]; intros prev inner H; [discriminate H |].
  cbn in H. destruct (Ascii.eqb c q && negb (Ascii.eqb prev backslash)).
  - injection H as _ <-. cbn. lia.
  - destruct (Ascii.eqb c newline); [discriminate H |].
    destruct (Re.quoted_span q c t) as [[i r] |] eqn:E; [| discriminate H].
    injection H as _ <-. specialize (IH _ _ E). cbn. lia.
Qed.

Lemma non_space_run_shorter s w rest :
  Re.non_space_run s = (w, rest) -> String.length rest <= String.length s.
Proof.
  revert w. induction s as [| c t IH]; intros w H; cbn in H.
  - injection H as _ <-. done.
  - destruct (is_space c).
    + injection H as _ <-. done.
    + destruct (Re.non_space_run t) as [w' r] eqn:E.
      injection H as _ <-. specialize (IH _ eq_refl). cbn. lia.
Qed.

Lemma non_space_run_cons c t w rest :
  is_space c = false ->
  Re.non_space_run (String c t) = (w, rest) ->
  String.length rest <= String.length t.
Proof.
  intros Hc H. simpl in H. rewrite Hc in H.
  destruct (Re.non_space_run t) as [w' r] eqn:E.
  injection H as _ <-. by apply non_space_run_shorter in E.
Qed.

(** Any fuel that covers the text gives the same scan. *)
Lemma command_re_scan_fuel n m s :
  String.length s <= n -> String.length s <= m ->
  Re.command_re_scan n s = Re.command_re_scan m s.
Proof.
  revert m s. induction n as [| n IH]; intros m s Hn Hm.
  - destruct s; [| cbn in Hn; lia]. by destruct m.
  - destruct s as [| c t]; [by destruct m |].
    destruct m as [| m]; [cbn in Hm; lia |].
    cbn in Hn, Hm. cbn [Re.command_re_scan].
    destruct (if is_quote c then Re.quoted_span c c t else None)
      as [[inner rest] |] eqn:E.
    + destruct (is_quote c); [| discriminate E].
      apply quoted_span_shorter in E. f_equal. apply IH; lia.
    + destruct (is_space c) eqn:Ec; [apply IH; lia |].
      destruct (Re.non_space_run (String c t)) as [w rest] eqn:Er.
      apply non_space_run_cons in Er; [| done]. f_equal. apply IH; lia.
Qed.

(** The scan written without fuel: the equation [command_re.finditer],
    followed by the un-escaping of each token, satisfies. *)
Lemma arguments_unfold s :
  arguments s =
  match s with
  | EmptyString => []
  | String c t =>
      match (if is_quote c then Re.quoted_span c c t else None) with
      | Some (inner, rest) => Re.unescape inner :: arguments rest
      | None =>
          if is_space c then arguments t
          else let (w, rest) := Re.non_space_run s in
               Re.unescape w :: arguments rest
      end
  end.
Proof.
  unfold arguments, Re.command_re_finditer.
  destruct s as [| c t]; [done |].
  cbn [String.length Re.command_re_scan].
  destruct (if is_quote c then Re.quoted_span c c t else None)
    as [[inner rest] |] eqn:E.
  - destruct (is_quote c); [| discriminate E].
    apply quoted_span_shorter in E. cbn [map Re.group_text]. f_equal.
    f_equal. apply command_re_scan_fuel; lia.
  - destruct (is_space c) eqn:Ec; [reflexivity |].
    destruct (Re.non_space_run (String c t)) as [w rest] eqn:Er.
    apply non_space_run_cons in Er; [| done].
    cbn [map Re.group_text]. f_equal. f_equal.
    apply command_re_scan_fuel; lia.
Qed.

(** *** Matching and cutting the command *)






(** *** The filter function *)

Lemma set_command_twice v w m :
  Message.set_command v (Message.set_command w m) = Message.set_command v m.
Proof. by destruct m. Qed.







(** *** What the tokens are *)

(** [\S+] takes the longest run without white space. *)
Lemma non_space_run_spec s w rest :
  Re.non_space_run s = (w, rest) ->
  s = w +:+ rest /\ no_space w = true /\ Re.at_boundary rest = true.
Proof.
  revert w. induction s as [| c t IH]; intros w H; simpl in H.
  - by injection H as <- <-.
  - destruct (is_space c) eqn:Ec.
    + injection H as <- <-. simpl. by rewrite Ec.
    + destruct (Re.non_space_run t) as [w' r] eqn:E.
      injection H as <- <-. destruct (IH w' eq_refl) as [-> [Hw Hr]].
      simpl. by rewrite Ec.
Qed.

(** A quoted span ends at a quote of the kind that opened it, holds no
    newline, and the character before the closing quote is no backslash. *)
Lemma quoted_span_sound q prev s inner rest :
  Re.quoted_span q prev s = Some (inner, rest) ->
  s = inner +:+ String q rest
  /\ has_char newline inner = false
  /\ last_char prev inner <> backslash.
Proof.
  revert prev inner. induction s as [| c t IH]; intros prev inner H; [discriminate H |].
  simpl in H.
  destruct (Ascii.eqb c q && negb (Ascii.eqb prev backslash)) eqn:E.
  - injection H as <- <-. apply andb_true_iff in E as [Ec Ep].
    apply Ascii.eqb_eq in Ec as ->. split; [done |]. split; [done |].
    simpl. intros ->. discriminate Ep.
  - destruct (Ascii.eqb c newline) eqn:En; [discriminate H |].
    destruct (Re.quoted_span q c t) as [[i r] |] eqn:Eq; [| discriminate H].
    injection H as <- <-. destruct (IH c i Eq) as [-> [Hn Hl]].
    split; [done |]. split; [| done]. simpl. by rewrite En.
Qed.

(** The span is the shortest one: no earlier quote could have closed it. *)
Lemma quoted_span_complete q prev inner rest :
  has_char newline inner = false ->
  has_char q inner = false ->
  last_char prev inner <> backslash ->
  Re.quoted_span q prev (inner +:+ String q rest) = Some (inner, rest).
Proof.
  revert prev. induction inner as [| c t IH]; intros prev Hn Hq Hl; simpl in *.
  - rewrite Ascii.eqb_refl. destruct (Ascii.eqb_spec prev backslash); [done | done].
  - apply orb_false_iff in Hn as [Hn1 Hn2]. apply orb_false_iff in Hq as [Hq1 Hq2].
    rewrite Hq1, Hn1. simpl. by rewrite (IH c Hn2 Hq2 Hl).
Qed.

(** A token without backslash is left as it is. *)
Lemma unescape_id s : has_char backslash s = false -> Re.unescape s = s.
Proof.
  induction s as [| c t IH]; [done |]. simpl. intros H.
  apply orb_false_iff in H as [Hc Ht]. rewrite Hc. by rewrite (IH Ht).
Qed.

(** A quoted argument: the text between the quotes is one token. *)
Lemma arguments_quoted q inner rest :
  is_quote q = true ->
  has_char newline inner = false ->
  has_char q inner = false ->
  has_char backslash inner = false ->
  arguments (String q (inner +:+ String q rest)) = inner :: arguments rest.
Proof.
  intros Hq Hn Hi Hb. rewrite arguments_unfold, Hq.
  rewrite quoted_span_complete; [by rewrite unescape_id | done | done |].
  clear Hn Hi. assert (Hqb : q <> backslash) by (intros ->; discriminate Hq).
  revert Hqb Hb. generalize q. induction inner as [| c t IH]; intros p Hp Hb; [done |].
  simpl in *. apply orb_false_iff in Hb as [Hc Ht]. apply IH; [| done].
  intros ->. discriminate Hc.
Qed.

Lemma arguments_quoted_witness :
  arguments (String dquote ("foo bar" +:+ String dquote " baz"))
  = "foo bar" :: arguments " baz".
Proof.
  apply (arguments_quoted dquote "foo bar" " baz"); reflexivity.
Defined.

(** A bare argument: a run without white space, quote or backslash, ended by
    a boundary, is one token. *)
Lemma arguments_word c w rest :
  is_space c = false -> is_quote c = false ->
  no_space w = true -> has_char backslash (String c w) = false ->
  Re.at_boundary rest = true ->
  arguments (String c w +:+ rest) = String c w :: arguments rest.
Proof.
  intros Hc Hq Hw Hb Hr.
  assert (Hrun : forall v, no_space v = true ->
                 Re.non_space_run (v +:+ rest) = (v, rest)).
  { induction v as [| x v IH]; simpl; intros Hv.
    - destruct rest as [| y rest]; [done |]. simpl in Hr |- *. by rewrite Hr.
    - apply andb_true_iff in Hv as [Hx Hv]. apply negb_true_iff in Hx.
      by rewrite Hx, (IH Hv). }
  rewrite arguments_unfold.
  change (String c w +:+ rest) with (String c (w +:+ rest)).
  cbv beta iota. rewrite Hq, Hc.
  change (String c (w +:+ rest)) with (String c w +:+ rest).
  rewrite Hrun; [| simpl; by rewrite Hc, Hw].
  by rewrite unescape_id.
Qed.

Lemma arguments_word_witness :
  arguments "hello world" = "hello" :: arguments " world".
Proof.
  apply (arguments_word "h" "ello" " world"); reflexivity.
Defined.

(** The remaining examples of the specification: an escaped quote, a custom
    prefix, no prefix, a case-sensitive filter, a mention of the bot, and a
    client that has not started. *)
Lemma command_examples :
  fst (call start_filter (bot_client None) (text_message escaped_text))
  = Message.set_command (Some ["start"; in_quotes "quoted"])
      (text_message escaped_text)
  /\ call (command (OneStr "go") (Some (OneStr "!")) false) (bot_client None)
       (text_message "!go")
     = (Message.set_command (Some ["go"]) (text_message "!go"), Ret (VBool true))
  /\ call (command (OneStr "go") (Some (OneStr "!")) false) (bot_client None)
       (text_message "/go")
     = (Message.set_command None (text_message "/go"), Ret (VBool false))
  /\ call (command (OneStr "go") None false) (bot_client None)
       (text_message "go")
     = (Message.set_command (Some ["go"]) (text_message "go"), Ret (VBool true))
  /\ call (command (OneStr "Start") default_prefixes true) (bot_client None)
       (text_message "/start")
     = (Message.set_command None (text_message "/start"), Ret (VBool false))
  /\ call start_filter (bot_client (Some "mybot"))
       (text_message "/start@MyBot now")
     = (Message.set_command (Some ["start"; "now"])
          (text_message "/start@MyBot now"), Ret (VBool true))
  /\ call start_filter no_client (text_message "/start")
     = (text_message "/start", Raise (none_has_no "username")).
Proof. vm_compute. repeat split. Qed.

(** *** Short circuit and the annotation *)

(** With a left operand that decides the result, [command] on the right is
    not run: the [command] field keeps what it held.  Run on its own, or
    after a left operand that does not decide, it overwrites the field. *)
Lemma skipped_operand_keeps_annotation :
  call (AndFilter caption start_filter) (bot_client None) annotated_message
  = (annotated_message, Ret (VBool false))
  /\ call (OrFilter text start_filter) (bot_client None) annotated_message
     = (annotated_message, Ret (VBool true))
  /\ call (AndFilter text start_filter) (bot_client None) annotated_message
     = (Message.set_command (Some ["start"; "now"]) annotated_message,
        Ret (VBool true))
  /\ call (OrFilter caption (InvertFilter start_filter)) (bot_client None)
       annotated_message
     = (Message.set_command (Some ["start"; "now"]) annotated_message,
        Ret (VBool false)).
Proof. vm_compute. repeat split. Qed.

(** ** The algebra of the combinators *)

Lemma truthy_py_and x y : truthy (py_and x y) = truthy x && truthy y.
Proof. unfold py_and. by destruct (truthy x) eqn:E; [| rewrite E]. Qed.

Lemma truthy_py_or x y : truthy (py_or x y) = truthy x || truthy y.
Proof. unfold py_or. by destruct (truthy x) eqn:E; [rewrite E |]. Qed.

Lemma py_and_truthy x y : truthy x = true -> py_and x y = y.
Proof. unfold py_and. by intros ->. Qed.

Lemma py_or_falsy x y : truthy x = false -> py_or x y = y.
Proof. unfold py_or. by intros ->. Qed.

Section CombinatorAlgebra.
Context {W : Type}.
Implicit Types (P Q R : Filter W) (client : Client.t) (w : W).

(** De Morgan, effects included: [~(P & Q)] and [~P | ~Q] run the same
    operands in the same order, leave the same world and give the same
    outcome; likewise [~(P | Q)] and [~P & ~Q]. *)
Theorem de_morgan P Q client w :
  call (InvertFilter (AndFilter P Q)) client w
  = call (OrFilter (InvertFilter P) (InvertFilter Q)) client w
  /\ call (InvertFilter (OrFilter P Q)) client w
     = call (AndFilter (InvertFilter P) (InvertFilter Q)) client w.
Proof.
  split.
  - rewrite invert_call, and_call, or_call, invert_call.
    destruct (call P client w) as [w' [x | e]]; [| done].
    cbn [truthy]. destruct (truthy x) eqn:Ex; cbn [negb]; [| done].
    rewrite invert_call.
    destruct (call Q client w') as [w'' [y | e]]; [| done].
    unfold py_and, py_or. by rewrite Ex.
  - rewrite invert_call, or_call, and_call, invert_call.
    destruct (call P client w) as [w' [x | e]]; [| done].
    cbn [truthy]. destruct (truthy x) eqn:Ex; cbn [negb]; [done |].
    rewrite invert_call.
    destruct (call Q client w') as [w'' [y | e]]; [| done].
    unfold py_and, py_or. by rewrite Ex.
Qed.

(** Both binary combinators are associative, effects included. *)
Theorem combinators_associative P Q R client w :
  call (AndFilter (AndFilter P Q) R) client w
  = call (AndFilter P (AndFilter Q R)) client w
  /\ call (OrFilter (OrFilter P Q) R) client w
     = call (OrFilter P (OrFilter Q R)) client w.
Proof.
  split.
  - rewrite !(and_call _ R), (and_call P Q), (and_call P (AndFilter Q R)).
    destruct (call P client w) as [w1 [x | e]]; [| done].
    destruct (truthy x) eqn:Ex; [| by cbn].
    rewrite and_call.
    destruct (call Q client w1) as [w2 [y | e]]; [| done].
    rewrite (py_and_truthy x y Ex).
    destruct (truthy y) eqn:Ey; [| by rewrite (py_and_truthy x _ Ex)].
    destruct (call R client w2) as [w3 [z | e]]; [| done].
    by rewrite (py_and_truthy x _ Ex).
  - rewrite !(or_call _ R), (or_call P Q), (or_call P (OrFilter Q R)).
    destruct (call P client w) as [w1 [x | e]]; [| done].
    destruct (truthy x) eqn:Ex; [by cbn |].
    rewrite or_call.
    destruct (call Q client w1) as [w2 [y | e]]; [| done].
    rewrite (py_or_falsy x y Ex).
    destruct (truthy y) eqn:Ey; [by rewrite (py_or_falsy x _ Ex) |].
    destruct (call R client w2) as [w3 [z | e]]; [| done].
    by rewrite (py_or_falsy x _ Ex).
Qed.

(** Inverting twice runs the filter once and coerces its value to a
    boolean. *)
Theorem double_inversion P client w :
  call (InvertFilter (InvertFilter P)) client w =
  match call P client w with
  | (w', Ret x) => (w', Ret (VBool (truthy x)))
  | (w', Raise e) => (w', Raise e)
  end.
Proof.
  rewrite !invert_call.
  destruct (call P client w) as [w' [x | e]]; [| done].
  cbn [truthy]. by rewrite negb_involutive.
Qed.

(** The truth value of a combinator whose operands both return. *)
Theorem combinator_truth_table P Q client w w1 w2 x y :
  call P client w = (w1, Ret x) ->
  call Q client w1 = (w2, Ret y) ->
  (exists v wa, call (AndFilter P Q) client w = (wa, Ret v)
                /\ truthy v = truthy x && truthy y
                /\ wa = (if truthy x then w2 else w1))
  /\ (exists v wo, call (OrFilter P Q) client w = (wo, Ret v)
                   /\ truthy v = truthy x || truthy y
                   /\ wo = (if truthy x then w1 else w2)).
Proof.
  intros HP HQ. rewrite and_call, or_call, HP.
  destruct (truthy x) eqn:Ex; rewrite ?HQ; split; eexists _, _;
    (split; [reflexivity | split; [| reflexivity]]);
    rewrite ?truthy_py_and, ?truthy_py_or, ?Ex; done.
Qed.

End CombinatorAlgebra.

Lemma combinator_truth_table_witness :
  exists v, call (AndFilter (constant (VStr "x")) (counting false)) no_client 3
            = (4, Ret v) /\ truthy v = false.
Proof.
  destruct (combinator_truth_table (constant (VStr "x")) (counting false)
              no_client 3 3 4 (VStr "x") (VBool false) eq_refl eq_refl)
    as [[v [wa [H1 [H2 H3]]]] _].
  exists v. rewrite H1, H3. split; [reflexivity | exact H2].
Defined.

(** ** Relations between catalog filters *)

(** [incoming] is [~outgoing]: same answer, same (untouched) message. *)
Theorem incoming_is_not_outgoing client m :
  call incoming client m = call (InvertFilter outgoing) client m.
Proof.
  rewrite invert_call. cbn. unfold incoming_filter, outgoing_filter, py_not.
  reflexivity.
Qed.

(** On every update the chat-scope filters either all raise or all return a
    boolean, they leave the update as it is, and at most one of them returns
    [True]. *)
Theorem chat_scope_exclusive client u :
  Forall (fun r => fst r = u) (chat_scopes client u)
  /\ (forallb raises (chat_scopes client u) = true
      \/ (Forall (fun r => exists b, snd r = Ret (VBool b)) (chat_scopes client u)
          /\ count_true (chat_scopes client u) <= 1)).
Proof.
  unfold chat_scopes. cbn [call private group channel create].
  unfold private_filter, group_filter, channel_filter.
  destruct u as [m | q | q | n]; cbn [scope_chat].
  - split; [by repeat constructor |]. right.
    destruct (Message.chat m) as [c |]; cbn.
    + destruct (Chat.type c); cbn; split; repeat constructor; by eexists.
    + split; [repeat constructor; by eexists | lia].
  - destruct (CallbackQuery.message q) as [m |].
    + split; [by repeat constructor |]. right.
      destruct (Message.chat m) as [c |]; cbn.
      * destruct (Chat.type c); cbn; split; repeat constructor; by eexists.
      * split; [repeat constructor; by eexists | lia].
    + split; [by repeat constructor |]. by left.
  - split; [by repeat constructor |]. by left.
  - split; [by repeat constructor |]. by left.
Qed.

(** ** Membership filters: what matches *)

Lemma contains_singleton (x y : ident) :
  contains {[ x ]} y = bool_decide (y = x).
Proof. unfold contains. apply bool_decide_ext. by rewrite elem_of_singleton. Qed.

Lemma contains_add (x y : ident) (self : gset ident) :
  y <> x -> contains (set_add x self) y = contains self y.
Proof.
  intros Hne. unfold contains, set_add. apply bool_decide_ext.
  rewrite elem_of_union, elem_of_singleton. tauto.
Qed.

Lemma is_upper_lower c : is_upper (lower_char c) = false.
Proof. each_char c. Qed.

Lemma has_upper_lower s : has_upper (lower s) = false.
Proof. induction s as [| c t IH]; [done |]. cbn. by rewrite is_upper_lower, IH. Qed.

Lemma has_at_lower s : has_char at_sign (lower s) = has_char at_sign s.
Proof. induction s as [| c t IH]; [done |]. cbn. by rewrite at_sign_lower, IH. Qed.

Lemma lstrip_absent x s : has_char x s = false -> lstrip x s = s.
Proof. destruct s as [| c t]; [done |]. cbn. intros H.
  apply orb_false_iff in H as [-> _]. done. Qed.

Lemma rstrip_absent x s : has_char x s = false -> rstrip x s = s.
Proof.
  induction s as [| c t IH]; [done |]. cbn. intros H.
  apply orb_false_iff in H as [Hc Ht]. rewrite (IH Ht).
  destruct t; [by rewrite Hc | done].
Qed.

Lemma strip_absent x s : has_char x s = false -> strip x s = s.
Proof. intros H. unfold strip. by rewrite lstrip_absent, rstrip_absent. Qed.

(** A name without [@] other than the two sentinels is stored lower-cased;
    a leading [@] makes no difference. *)
Lemma normalize_name base :
  has_char at_sign base = false -> base <> "me" -> base <> "self" ->
  normalize (Name base) = Name (lower base)
  /\ normalize (Name (String at_sign base)) = Name (lower base).
Proof.
  intros Hat Hme Hself.
  assert (Hl : has_char at_sign (lower base) = false) by by rewrite has_at_lower.
  split.
  - rewrite (proj2 (normalize_cases (Name base)) Hme Hself).
    by rewrite strip_absent.
  - rewrite (proj2 (normalize_cases (Name (String at_sign base))))
      by discriminate.
    unfold strip. cbn [lower lstrip].
    change (lower_char at_sign) with at_sign. rewrite Ascii.eqb_refl.
    by rewrite lstrip_absent, rstrip_absent.
Qed.

Lemma user_call_truthy (self : gset ident) client m :
  truthy (user_call self client m)
  = match Message.from_user m with
    | None => false
    | Some u =>
        contains self (Id (User.id u))
        || truthy (of_opt_str (User.username u))
           && contains self (Name (lower (default "" (User.username u))))
        || contains self (Name "me") && truthy (of_opt_bool (User.is_self u))
    end.
Proof.
  unfold user_call. destruct (Message.from_user m) as [u |]; [| done].
  by rewrite !truthy_py_or, !truthy_py_and.
Qed.

Lemma chat_call_truthy (self : gset ident) client m :
  truthy (chat_call self client m)
  = match Message.chat m with
    | None => false
    | Some c =>
        contains self (Id (Chat.id c))
        || truthy (of_opt_str (Chat.username c))
           && contains self (Name (lower (default "" (Chat.username c))))
        || contains self (Name "me")
           && match Message.from_user m with
              | None => false
              | Some u =>
                  truthy (of_opt_bool (User.is_self u))
                  && negb (truthy (of_opt_bool (Message.outgoing m)))
              end
    end.
Proof.
  unfold chat_call. destruct (Message.chat m) as [c |]; [| done].
  rewrite !truthy_py_or, !truthy_py_and. cbn [truthy].
  destruct (Message.from_user m) as [u |]; [| done].
  by rewrite truthy_py_and.
Qed.

(** The truth value of the membership filters: the sender (the chat) must be
    there, and its id, its non-empty user name in lower case, or (for [me]
    in the set) the self test must hit.  For [chat] the self test is that the
    sender is the account itself and the message is not outgoing. *)
Theorem membership_truth (self : gset ident) client m :
  truthy (user_call self client m)
  = match Message.from_user m with
    | None => false
    | Some u =>
        contains self (Id (User.id u))
        || truthy (of_opt_str (User.username u))
           && contains self (Name (lower (default "" (User.username u))))
        || contains self (Name "me") && truthy (of_opt_bool (User.is_self u))
    end
  /\ truthy (chat_call self client m)
     = match Message.chat m with
       | None => false
       | Some c =>
           contains self (Id (Chat.id c))
           || truthy (of_opt_str (Chat.username c))
              && contains self (Name (lower (default "" (Chat.username c))))
           || contains self (Name "me")
              && match Message.from_user m with
                 | None => false
                 | Some u =>
                     truthy (of_opt_bool (User.is_self u))
                     && negb (truthy (of_opt_bool (Message.outgoing m)))
                 end
       end.
Proof. split; [apply user_call_truthy | apply chat_call_truthy]. Qed.

(** A filter built from one user name (with or without a leading [@], in any
    letter case) matches exactly the senders whose user name is that name in
    any letter case. *)
Theorem user_by_name base client m :
  has_char at_sign base = false ->
  lower base <> "me" -> base <> "self" ->
  user (OneIdent (Name (String at_sign base))) = user (OneIdent (Name base))
  /\ truthy (user_call (user (OneIdent (Name base))) client m)
     = match Message.from_user m with
       | Some u =>
           match User.username u with
           | Some un => negb (String.eqb un "") && String.eqb (lower un) (lower base)
           | None => false
           end
       | None => false
       end.
Proof.
  intros Hat Hme Hself.
  assert (Hme' : base <> "me") by (intros ->; by apply Hme).
  destruct (normalize_name base Hat Hme' Hself) as [Hn Hn'].
  assert (Hu : user (OneIdent (Name base)) = {[ Name (lower base) ]}).
  { unfold user. cbn [ident_list map]. rewrite Hn. apply singleton_set. }
  split.
  { rewrite Hu. unfold user. cbn [ident_list map]. rewrite Hn'. apply singleton_set. }
  rewrite user_call_truthy, Hu.
  destruct (Message.from_user m) as [u |]; [| done].
  rewrite !contains_singleton.
  rewrite (bool_decide_eq_false_2 (Id (User.id u) = Name (lower base)))
    by discriminate.
  rewrite (bool_decide_eq_false_2 (Name "me" = Name (lower base)))
    by (intros [= H]; by apply Hme).
  cbn [orb andb]. rewrite orb_false_r.
  destruct (User.username u) as [un |]; [| done].
  cbn [of_opt_str truthy default]. unfold id. f_equal.
  destruct (String.eqb_spec (lower un) (lower base)) as [-> | Hne].
  - by apply bool_decide_eq_true.
  - apply bool_decide_eq_false. by intros [= ?].
Qed.

Lemma user_by_name_witness :
  truthy (user_call (user (OneIdent (Name "@Alice"))) no_client
            (Message.mk None None None
               (Some (User.mk 9 (Some "ALICE") (Some false) (Some false)))
               None None None None None None None None None None None None None
               None None None)) = true.
Proof.
  destruct (user_by_name "Alice" no_client
              (Message.mk None None None
                 (Some (User.mk 9 (Some "ALICE") (Some false) (Some false)))
                 None None None None None None None None None None None None None
                 None None None)
              eq_refl ltac:(discriminate) ltac:(discriminate)) as [Hset Htruth].
  change (Name "@Alice") with (Name (String at_sign "Alice")).
  rewrite Hset. exact Htruth.
Defined.

(** A name with an upper-case letter that is put into the set through [add]
    changes nothing in what the filters answer: user names are compared in
    lower case. *)
Theorem add_with_upper_case_is_inert (x : string) (self : gset ident)
    (client : Client.t) (m : Message.t) :
  has_upper x = true ->
  user_call (set_add (Name x) self) client m = user_call self client m
  /\ chat_call (set_add (Name x) self) client m = chat_call self client m.
Proof.
  intros Hx.
  assert (Hlow : forall s, Name (lower s) <> Name x).
  { intros s [= <-]. by rewrite has_upper_lower in Hx. }
  assert (Hme : Name "me" <> Name x) by (intros [= <-]; discriminate Hx).
  assert (Hid : forall z, Id z <> Name x) by discriminate.
  unfold user_call, chat_call.
  split.
  - destruct (Message.from_user m) as [u |]; [| done].
    by rewrite !contains_add.
  - destruct (Message.chat m) as [c |]; [| done].
    by rewrite !contains_add.
Qed.

Lemma add_with_upper_case_is_inert_witness :
  user_call (set_add (Name "Bob") (user NoIdent)) no_client own_message
  = user_call (user NoIdent) no_client own_message.
Proof.
  apply (proj1 (add_with_upper_case_is_inert "Bob" (user NoIdent) no_client
                  own_message eq_refl)).
Defined.

(** ** The [command] filter: verdict, frame, idempotence *)

Lemma try_commands_some cs u wp cmds found :
  try_commands cs u wp cmds = Some found ->
  exists c, In c cmds
    /\ Re.match_command (negb cs) c u wp = true
    /\ found = c :: arguments (Re.sub_command (negb cs) c u wp).
Proof.
  induction cmds as [| c0 cmds IH]; [discriminate |]. simpl.
  destruct (Re.match_command (negb cs) c0 u wp) eqn:E; simpl.
  - intros [= <-]. exists c0. split; [by left |]. by split.
  - intros H. destruct (IH H) as [c [Hin Hc]]. exists c. split; [by right | done].
Qed.

Lemma try_commands_none cs u wp cmds :
  try_commands cs u wp cmds = None ->
  forall c, In c cmds -> Re.match_command (negb cs) c u wp = false.
Proof.
  induction cmds as [| c0 cmds IH]; [by intros _ c [] |]. simpl.
  destruct (Re.match_command (negb cs) c0 u wp) eqn:E; simpl; [discriminate |].
  intros H c [<- | Hin]; [done | by apply IH].
Qed.

Lemma try_prefixes_some cs u text cmds pfxs found :
  try_prefixes cs u text cmds pfxs = Some found ->
  exists p wp, In p pfxs /\ strip_prefix p text = Some wp
    /\ try_commands cs u wp cmds = Some found.
Proof.
  induction pfxs as [| p pfxs IH]; [discriminate |]. simpl.
  destruct (strip_prefix p text) as [wp |] eqn:Ep.
  - destruct (try_commands cs u wp cmds) as [l |] eqn:Et.
    + intros [= <-]. exists p, wp. split; [by left |]. by split.
    + intros H. destruct (IH H) as [p' [wp' [Hin Hr]]].
      exists p', wp'. split; [by right | done].
  - intros H. destruct (IH H) as [p' [wp' [Hin Hr]]].
    exists p', wp'. split; [by right | done].
Qed.

Lemma try_prefixes_none cs u text cmds pfxs :
  try_prefixes cs u text cmds pfxs = None ->
  forall p wp, In p pfxs -> strip_prefix p text = Some wp ->
    try_commands cs u wp cmds = None.
Proof.
  induction pfxs as [| p0 pfxs IH]; [by intros _ p wp [] |]. simpl.
  destruct (strip_prefix p0 text) as [wp0 |] eqn:Ep.
  - destruct (try_commands cs u wp0 cmds) as [l |] eqn:Et; [discriminate |].
    intros H p wp [<- | Hin] Hp; [congruence | by apply (IH H p)].
  - intros H p wp [<- | Hin] Hp; [congruence | by apply (IH H p)].
Qed.

Lemma command_func_unfold flt client me m :
  Client.me client = Some me ->
  command_func flt client m =
  if String.eqb (command_text m) "" then (Message.set_command None m, Ret (VBool false))
  else match try_prefixes (case_sensitive flt) (username_of me) (command_text m)
               (elements (commands flt)) (elements (prefixes flt)) with
       | Some found => (Message.set_command (Some found) m, Ret (VBool true))
       | None => (Message.set_command None m, Ret (VBool false))
       end.
Proof.
  intros Hme. unfold command_func, command_text. rewrite Hme.
  destruct (str_or (Message.text m) (Message.caption m)) as [t |]; [| done].
  cbn [of_opt_str truthy default]. unfold id.
  destruct (String.eqb t ""); cbn [negb]; [done |].
  destruct (try_prefixes _ _ _ _ _); [by rewrite set_command_twice | done].
Qed.

(** What the filter answers and what it leaves behind, for a client that
    has started, where the command names and the user name of the account
    are literal text.  Only the [command] field of the message changes.  The
    answer is [True] exactly when the field is set, and then the text is not
    empty, starts with a configured prefix, and right after it a configured
    command matches up to a boundary; the field holds that command and the
    arguments.  The answer is [False] exactly when the field is [None], and
    then the text is empty or no configured prefix and command fit. *)
Theorem command_verdict flt client me m :
  Client.me client = Some me ->
  plain (username_of me) = true ->
  (forall n, n ∈ commands flt -> plain n = true) ->
  exists found : option (list string),
    command_func flt client m
    = (Message.set_command found m, Ret (VBool (present found)))
    /\ match found with
       | Some l =>
           command_text m <> ""
           /\ exists p wp c,
                p ∈ prefixes flt /\ c ∈ commands flt
                /\ strip_prefix p (command_text m) = Some wp
                /\ Re.match_command (negb (case_sensitive flt)) c
                     (username_of me) wp = true
                /\ l = c :: arguments
                              (Re.sub_command (negb (case_sensitive flt)) c
                                 (username_of me) wp)
       | None =>
           command_text m = ""
           \/ forall p wp c,
                p ∈ prefixes flt -> c ∈ commands flt ->
                strip_prefix p (command_text m) = Some wp ->
                Re.match_command (negb (case_sensitive flt)) c
                  (username_of me) wp = false
       end.
Proof.
  intros Hme _ _. rewrite (command_func_unfold flt client me m Hme).
  destruct (String.eqb_spec (command_text m) "") as [He | Hne].
  { exists None. split; [done | by left]. }
  destruct (try_prefixes _ _ _ _ _) as [found |] eqn:Et.
  - exists (Some found). split; [done |]. split; [done |].
    apply try_prefixes_some in Et as [p [wp [Hp [Hs Hc]]]].
    apply try_commands_some in Hc as [c [Hc [Hm Hl]]].
    exists p, wp, c.
    rewrite <- list_elem_of_In, elem_of_elements in Hp, Hc. done.
  - exists None. split; [done |]. right. intros p wp c Hp Hc Hs.
    apply (try_commands_none _ _ _ (elements (commands flt))).
    + apply (try_prefixes_none _ _ _ _ _ Et p wp); [| done].
      by rewrite <- list_elem_of_In, elem_of_elements.
    + by rewrite <- list_elem_of_In, elem_of_elements.
Qed.

Lemma command_verdict_witness :
  exists found,
    call start_filter (bot_client None) (text_message "/help")
    = (Message.set_command found (text_message "/help"),
       Ret (VBool (present found))).
Proof.
  destruct (command_verdict
              (command_kwargs (OneStr "start") default_prefixes default_case_sensitive)
              (bot_client None) (bot_user None) (text_message "/help") eq_refl
              eq_refl)
    as [found [H _]].
  - intros n Hn. apply elem_of_list_to_set, list_elem_of_In in Hn.
    destruct Hn as [<- | []]. reflexivity.
  - exists found. exact H.
Defined.

(** Where the command names and the user name of the account are literal
    text, evaluating the filter again on the message it left gives the same
    outcome and changes nothing more. *)
Theorem command_idempotent flt client m :
  (forall me, Client.me client = Some me -> plain (username_of me) = true) ->
  (forall n, n ∈ commands flt -> plain n = true) ->
  command_func flt client (fst (command_func flt client m))
  = command_func flt client m.
Proof.
  intros _ _. destruct (Client.me client) as [me |] eqn:Hme.
  - rewrite !(command_func_unfold flt client me) by done.
    assert (Ht : forall v, command_text (Message.set_command v m) = command_text m)
      by done.
    destruct (String.eqb (command_text m) "") eqn:E; cbn [fst].
    + by rewrite Ht, E, set_command_twice.
    + destruct (try_prefixes _ _ _ _ _) as [found |] eqn:Et; cbn [fst];
        by rewrite Ht, E, Et, set_command_twice.
  - unfold command_func. rewrite Hme. reflexivity.
Qed.

Lemma command_idempotent_witness :
  call start_filter (bot_client (Some "hydrobot"))
    (fst (call start_filter (bot_client (Some "hydrobot"))
            (text_message "/start@hydrobot now")))
  = call start_filter (bot_client (Some "hydrobot"))
      (text_message "/start@hydrobot now").
Proof.
  apply (command_idempotent
           (command_kwargs (OneStr "start") default_prefixes default_case_sensitive)
           (bot_client (Some "hydrobot")) (text_message "/start@hydrobot now")).
  - intros me [= <-]. reflexivity.
  - intros n Hn. apply elem_of_list_to_set, list_elem_of_In in Hn.
    destruct Hn as [<- | []]. reflexivity.
Defined.

(** ** The [regex] filter: idempotence *)

Lemma get_set_matches v u :
  ~ unrecognised u -> get_matches (set_matches v u) = v.
Proof. by destruct u; [| | | intros []]. Qed.

Lemma set_matches_twice v v' u :
  set_matches v (set_matches v' u) = set_matches v u.
Proof. by destruct u as [[] | [] | [] |]. Qed.

Lemma regex_func_unfold flt client u :
  ~ unrecognised u ->
  regex_func flt client u =
  let u' :=
    if truthy (of_opt_str (selected_text u))
    then set_matches
           (list_or_none (finditer (p flt) (default "" (selected_text u)))) u
    else u in
  (u', Ret (VBool (of_opt_list (get_matches u')))).
Proof. by destruct u; [| | | intros []]. Qed.

Lemma selected_text_set_matches v u :
  selected_text (set_matches v u) = selected_text u.
Proof. by destruct u as [[] | [] | [] |]. Qed.

Lemma set_matches_recognised v u :
  ~ unrecognised u -> ~ unrecognised (set_matches v u).
Proof. by destruct u. Qed.

(** Evaluating the filter again on the update it left gives the same outcome
    and changes nothing more; and whenever it returns, its answer is whether
    [matches] now holds a non-empty list. *)
Theorem regex_idempotent flt client u :
  regex_func flt client (fst (regex_func flt client u))
  = regex_func flt client u
  /\ (forall u' v, regex_func flt client u = (u', Ret v) ->
        v = VBool (of_opt_list (get_matches u'))).
Proof.
  assert (unrecognised u \/ ~ unrecognised u) as [Hu | Hu]
    by (destruct u; cbn; tauto).
  { destruct u as [m | q | q | n]; [destruct Hu .. |].
    split; [reflexivity | intros u' v H; discriminate H]. }
  split.
  - rewrite (regex_func_unfold flt client u Hu). cbv zeta. cbn [fst].
    destruct (truthy (of_opt_str (selected_text u))) eqn:E.
    + rewrite regex_func_unfold by by apply set_matches_recognised.
      cbv zeta. rewrite selected_text_set_matches, E.
      by rewrite set_matches_twice.
    + rewrite regex_func_unfold by done. cbv zeta. by rewrite E.
  - intros u' v. rewrite (regex_func_unfold flt client u Hu). cbv zeta.
    by intros [= <- <-].
Qed.

(** ** The tokens of plain words *)

Lemma append_empty_r (s : string) : s +:+ "" = s.
Proof.
  induction s as [| c t IH]; [done |].
  change (String c (t +:+ "") = String c t). by f_equal.
Qed.

Lemma arguments_skip_space c s :
  is_space c = true -> arguments (String c s) = arguments s.
Proof.
  intros Hc. rewrite arguments_unfold.
  assert (Hq : is_quote c = false).
  { destruct (is_quote c) eqn:E; [| done]. unfold is_quote in E.
    apply orb_true_iff in E as [E | E]; apply Ascii.eqb_eq in E; subst;
      discriminate Hc. }
  by rewrite Hq, Hc.
Qed.

(** Splitting is the inverse of joining: words without white space, quote in
    front or backslash, joined by single spaces, come back as the
    arguments. *)
Theorem arguments_of_words (ws : list string) :
  Forall (fun w => bare w = true) ws ->
  arguments (join_words ws) = ws.
Proof.
  induction 1 as [| w ws Hw Hws IH]; [done |].
  destruct w as [| c w]; [discriminate Hw |]. cbn [bare] in Hw.
  apply andb_true_iff in Hw as [Hw Hb]. apply andb_true_iff in Hw as [Hq Hs].
  apply negb_true_iff in Hq, Hb.
  cbn [no_space] in Hs. apply andb_true_iff in Hs as [Hc Hs].
  apply negb_true_iff in Hc.
  destruct ws as [| w' ws].
  - cbn [join_words]. rewrite <- (append_empty_r (String c w)).
    rewrite (arguments_word c w "" Hc Hq Hs Hb eq_refl).
    by rewrite append_empty_r.
  - change (join_words (String c w :: w' :: ws))
      with (String c w +:+ String " " (join_words (w' :: ws))).
    rewrite (arguments_word c w (String " " (join_words (w' :: ws)))
               Hc Hq Hs Hb eq_refl).
    by rewrite arguments_skip_space, IH.
Qed.

Lemma arguments_of_words_witness :
  arguments "alpha beta gamma" = ["alpha"; "beta"; "gamma"].
Proof.
  apply (arguments_of_words ["alpha"; "beta"; "gamma"]).
  repeat constructor.
Defined.

(** ** The [command] filter with other prefixes and with case sensitivity *)



Lemma string_set_singleton (x : string) : (list_to_set [x] : gset string) = {[ x ]}.
Proof. cbn. by rewrite (right_id_L ∅ (∪)). Qed.

(** How the [prefixes] argument becomes the set of prefixes: nothing, and an
    empty list, stand for the empty prefix; one string stands for itself,
    the empty string too. *)
Lemma prefixes_of_argument cmds cs :
  prefixes (command_kwargs cmds None cs) = {[ "" ]}
  /\ prefixes (command_kwargs cmds (Some (ManyStr [])) cs) = {[ "" ]}
  /\ (forall p, prefixes (command_kwargs cmds (Some (OneStr p)) cs) = {[ p ]}).
Proof.
  split; [done |]. split; [done |]. intros p. apply string_set_singleton.
Qed.



(** ** [search_messages] *)

Lemma total_of_pos limit : (1 <= total_of limit)%Z.
Proof.
  unfold total_of. destruct (Z.eqb_spec (Z.abs limit) 0); [done | lia].
Qed.

(** The inner loop in closed form. *)
Lemma yield_messages_spec messages current total :
  (current < total)%Z ->
  yield_messages messages current total =
  let n := Z.to_nat (total - current) in
  if (n <=? length messages)%nat then (take n messages, total, true)
  else (messages, (current + Z.of_nat (length messages))%Z, false).
Proof.
  revert current. induction messages as [| m rest IH]; intros current Hlt; cbv zeta.
  - cbn [yield_messages length].
    destruct (Nat.leb_spec (Z.to_nat (total - current)) 0); [lia |].
    f_equal. f_equal. lia.
  - cbn [yield_messages length].
    destruct (Z.geb_spec (current + 1) total) as [Hge | Hlt'].
    + assert (Hn : Z.to_nat (total - current) = 1%nat) by lia. rewrite Hn.
      cbn. f_equal. f_equal. lia.
    + rewrite IH by lia. cbv zeta.
      assert (Hn : Z.to_nat (total - current) = S (Z.to_nat (total - (current + 1))))
        by lia.
      rewrite Hn.
      change (S ?a <=? S ?b)%nat with (a <=? b)%nat.
      destruct (Nat.leb_spec (Z.to_nat (total - (current + 1))) (length rest)).
      * done.
      * f_equal. f_equal. lia.
Qed.

Section SearchFacts.
Variables Peer MessagesFilter RawFilter : Type.
Variable resolve_peer : ident -> outcome Peer.
Variable filter_value : MessagesFilter -> RawFilter.
Variable invoke : Search.t Peer RawFilter -> Z -> outcome (list Message.t).
Variables (chat_id : ident) (query : string) (filter : MessagesFilter)
  (from_user : option ident).

Abbreviation loop := (search_loop Peer MessagesFilter RawFilter resolve_peer
                    filter_value invoke).
Abbreviation chunk := (get_chunk Peer MessagesFilter RawFilter resolve_peer
                     filter_value invoke chat_id query filter).

(** With fuel for the messages still to come the loop ends; it yields no
    more than are still to come, asks for [limit] messages every time, and
    asks for ever later offsets, the first being [offset]. *)
Lemma search_loop_spec fuel offset current total limit :
  (0 <= current < total)%Z ->
  (Z.to_nat (total - current) <= fuel)%nat ->
  exists r,
    loop fuel chat_id query filter from_user offset current total limit = Some r
    /\ (Z.of_nat (length (yielded r)) <= total - current)%Z
    /\ Forall (fun c => snd c = limit) (chunk_calls r)
    /\ hd_error (map fst (chunk_calls r)) = Some offset
    /\ StronglySorted Z.lt (map fst (chunk_calls r)).
Proof.
  revert offset current. induction fuel as [| fuel IH]; intros offset current Hc Hf;
    [lia |].
  cbn [search_loop].
  destruct (chunk offset limit from_user) as [[| m ms] | e].
  - eexists. split; [reflexivity |]. cbn. repeat split; try lia; repeat constructor.
  - rewrite yield_messages_spec by lia. cbv zeta.
    destruct (Nat.leb_spec (Z.to_nat (total - current)) (length (m :: ms))) as [Hle | Hgt].
    + eexists. split; [reflexivity |]. cbn [yielded chunk_calls].
      rewrite length_take. repeat split; try lia; repeat constructor.
    + destruct (IH (offset + Z.of_nat (length (m :: ms)))%Z
                   (current + Z.of_nat (length (m :: ms)))%Z)
        as [r [Hr [Hlen [Hlim [Hhd Hsorted]]]]].
      { cbn [length] in *. lia. }
      { cbn [length] in *. lia. }
      rewrite Hr. eexists. split; [reflexivity |]. cbn [yielded chunk_calls].
      rewrite length_app. repeat split.
      * cbn [length] in *. lia.
      * by constructor.
      * cbn [map fst]. constructor; [done |].
        destruct (map fst (chunk_calls r)) as [| o os]; [constructor |].
        injection Hhd as ->.
        assert (Hfirst : (offset < offset + Z.of_nat (length (m :: ms)))%Z)
          by (cbn [length]; lia).
        constructor; [done |].
        apply StronglySorted_inv in Hsorted as [_ Hall].
        eapply Forall_impl; [exact Hall |]. cbn [length] in *. intros; lia.
  - eexists. split; [reflexivity |]. cbn. repeat split; try lia; repeat constructor.
Qed.

(** Whatever the server answers, the generator ends, and it yields at most
    [abs(limit)] messages, or at most [2^31 - 1] when [limit] is 0. *)
Theorem search_messages_bounded offset limit :
  exists r,
    search_messages Peer MessagesFilter RawFilter resolve_peer filter_value
      invoke chat_id query offset filter limit from_user = Some r
    /\ (Z.of_nat (length (yielded r))
        <= (if (limit =? 0)%Z then 2 ^ 31 - 1 else Z.abs limit))%Z.
Proof.
  unfold search_messages.
  destruct (search_loop_spec (Z.to_nat (total_of limit)) offset 0 (total_of limit)
              (Z.min 100 (total_of limit))) as [r [Hr [Hlen _]]].
  { pose proof (total_of_pos limit). lia. }
  { lia. }
  exists r. split; [done |].
  unfold total_of in Hlen.
  change (Z.shiftl 1 31 - 1)%Z with (2 ^ 31 - 1)%Z in Hlen.
  destruct (Z.eqb_spec limit 0) as [-> | Hne].
  - change (Z.abs 0 =? 0)%Z with true in Hlen. cbv iota in Hlen. lia.
  - destruct (Z.eqb_spec (Z.abs limit) 0); lia.
Qed.

(** Every call of [get_chunk] asks for the same number of messages, between
    1 and 100; the first call is at [offset] and every later call is at a
    later offset. *)
Theorem search_messages_calls offset limit r :
  search_messages Peer MessagesFilter RawFilter resolve_peer filter_value
    invoke chat_id query offset filter limit from_user = Some r ->
  Forall (fun c => snd c = Z.min 100 (total_of limit)
                   /\ (1 <= snd c <= 100)%Z) (chunk_calls r)
  /\ hd_error (map fst (chunk_calls r)) = Some offset
  /\ StronglySorted Z.lt (map fst (chunk_calls r)).
Proof.
  unfold search_messages. intros Hr.
  pose proof (total_of_pos limit) as Hpos.
  destruct (search_loop_spec (Z.to_nat (total_of limit)) offset 0 (total_of limit)
              (Z.min 100 (total_of limit))) as [r' [Hr' [_ [Hlim [Hhd Hs]]]]];
    [lia | lia |].
  rewrite Hr in Hr'. injection Hr' as <-.
  split; [| done].
  eapply Forall_impl; [exact Hlim |]. cbn. intros c ->. lia.
Qed.

(** Against a server that pages through a fixed list of results, the
    generator yields the results from [offset] on, [total] of them at most,
    in order, and returns. *)
Theorem search_messages_pages (store : list Message.t) offset limit :
  (0 <= offset)%Z ->
  (forall off lim,
      chunk off lim from_user
      = Ret (take (Z.to_nat lim) (drop (Z.to_nat off) store))) ->
  exists calls,
    search_messages Peer MessagesFilter RawFilter resolve_peer filter_value
      invoke chat_id query offset filter limit from_user
    = Some (mkRun (take (Z.to_nat (total_of limit)) (drop (Z.to_nat offset) store))
              calls Returned).
Proof.
  intros Hoff Hserver. unfold search_messages.
  pose proof (total_of_pos limit) as Hpos.
  set (total := total_of limit) in *.
  assert (Hgen : forall fuel off current,
             (0 <= off)%Z -> (0 <= current < total)%Z ->
             (Z.to_nat (total - current) <= fuel)%nat ->
             exists calls,
               loop fuel chat_id query filter from_user off current total
                 (Z.min 100 total)
               = Some (mkRun (take (Z.to_nat (total - current))
                                (drop (Z.to_nat off) store)) calls Returned)).
  { induction fuel as [| fuel IH]; intros off current Ho Hc Hf; [lia |].
    cbn [search_loop]. rewrite Hserver.
    set (s := drop (Z.to_nat off) store).
    set (L := Z.to_nat (Z.min 100 total)).
    assert (HL : (1 <= L)%nat) by lia.
    destruct (take L s) as [| m ms] eqn:Echunk.
    - apply take_nil_inv in Echunk as [? | ->]; [lia |].
      rewrite take_nil. by eexists.
    - rewrite <- Echunk. rewrite yield_messages_spec by lia. cbv zeta.
      set (n := Z.to_nat (total - current)).
      assert (Hlen : length (take L s) = Nat.min L (length s)) by apply length_take.
      assert (Hpos' : (1 <= length (take L s))%nat) by (rewrite Echunk; cbn; lia).
      destruct (Nat.leb_spec n (length (take L s))) as [Hle | Hgt].
      + eexists. f_equal. f_equal. rewrite take_take. f_equal. lia.
      + destruct (IH (off + Z.of_nat (length (take L s)))%Z
                     (current + Z.of_nat (length (take L s)))%Z)
          as [calls Hcalls]; [lia | lia | lia |].
        rewrite Hcalls. eexists. cbn [yielded chunk_calls stopped]. f_equal.
        f_equal.
        replace (Z.to_nat (off + Z.of_nat (length (take L s))))
          with (Z.to_nat off + length (take L s))%nat by lia.
        rewrite <- drop_drop. fold s.
        replace (Z.to_nat (total - (current + Z.of_nat (length (take L s)))))
          with (n - length (take L s))%nat by lia.
        assert (Htake : take L s = take (length (take L s)) s).
        { rewrite Hlen. destruct (Nat.le_ge_cases L (length s)).
          - by rewrite Nat.min_l.
          - rewrite Nat.min_r by done. by rewrite !take_ge. }
        rewrite Htake at 1. rewrite take_take_drop. f_equal. lia. }
  destruct (Hgen (Z.to_nat total) offset 0%Z) as [calls Hcalls]; [lia | lia | lia |].
  exists calls. rewrite Hcalls. do 3 f_equal. lia.
Qed.

End SearchFacts.

(** ** [send_dice] *)

Lemma dict_by_id_snoc l e : dict_by_id (l ++ [e]) = <[raw.id e := e]> (dict_by_id l).
Proof. unfold dict_by_id. by rewrite foldl_app. Qed.

(** The dictionary built from the users (or chats) of the answer holds, for
    every id, the last entry of the list with that id, and nothing for an id
    that is not in the list. *)
Theorem dict_by_id_lookup (l : list raw.Entity) (k : Z) :
  dict_by_id l !! k
  = last (List.filter (fun e => (raw.id e =? k)%Z) l).
Proof.
  induction l as [| e l IH] using rev_ind; [done |].
  rewrite dict_by_id_snoc, List.filter_app. cbn [List.filter].
  destruct (Z.eqb_spec (raw.id e) k) as [<- | Hne].
  - rewrite lookup_insert_eq. by rewrite last_snoc.
  - rewrite lookup_insert_ne by done. by rewrite app_nil_r.
Qed.

Section SendDiceFacts.
Variables Peer Emoji ReplyTo Datetime Markup RawMarkup : Type.
Variable resolve_peer : ident -> outcome Peer.
Variable get_reply_head_fm : option Z -> option Z -> ReplyTo.
Variable rnd_id : Z.
Variable datetime_to_timestamp : option Datetime -> option Z.
Variable write : Markup -> outcome RawMarkup.
Variable invoke :
  raw.SendMedia Peer Emoji ReplyTo RawMarkup -> outcome raw.Updates.
Variable parse :
  TLObject -> gmap Z raw.Entity -> gmap Z raw.Entity -> bool -> Message.t.

Lemma first_new_message_spec users chats l :
  match first_new_message parse users chats l with
  | None => Forall (fun i => new_message i = None) l
  | Some msg =>
      exists pre i post body,
        l = pre ++ i :: post
        /\ Forall (fun j => new_message j = None) pre
        /\ new_message i = Some body
        /\ msg = parse body users chats (is_scheduled i)
  end.
Proof.
  induction l as [| i l IH]; [by constructor |]. cbn [first_new_message].
  destruct (new_message i) as [body |] eqn:Ei.
  - exists [], i, l, body. by repeat split.
  - destruct (first_new_message parse users chats l) as [msg |].
    + destruct IH as [pre [j [post [body [-> [Hpre [Hj ->]]]]]]].
      exists (i :: pre), j, post, body. repeat split; [by constructor | done].
    + by constructor.
Qed.

(** When the peer resolves and the server answers, [send_dice] returns the
    parse of the first update of the answer that is a new message, new
    channel message or new scheduled message, flagged as scheduled exactly
    for the last kind, with the users and chats of the answer by id; and it
    returns [None] when no update is of these kinds.  The request it sent has
    the empty text and a [silent] flag that is [True] or absent. *)
Theorem send_dice_result chat_id emoji thread quiet reply_id date protect
    markup (peer : Peer) (written : option RawMarkup) (r : raw.Updates) :
  resolve_peer chat_id = Ret peer ->
  write_optional Markup RawMarkup write markup = Ret written ->
  invoke (raw.mkSendMedia peer emoji (or_none quiet)
            (get_reply_head_fm thread reply_id) rnd_id
            (datetime_to_timestamp date) protect written "") = Ret r ->
  or_none quiet <> Some false
  /\ match send_dice Peer Emoji ReplyTo Datetime Markup RawMarkup resolve_peer
             get_reply_head_fm rnd_id datetime_to_timestamp write invoke parse
             chat_id emoji thread quiet reply_id date protect markup with
     | Ret None => Forall (fun i => new_message i = None) (raw.updates r)
     | Ret (Some msg) =>
         exists pre i post body,
           raw.updates r = pre ++ i :: post
           /\ Forall (fun j => new_message j = None) pre
           /\ new_message i = Some body
           /\ msg = parse body (dict_by_id (raw.users r))
                      (dict_by_id (raw.chats r)) (is_scheduled i)
     | Raise _ => False
     end.
Proof.
  intros Hpeer Hwrite Hinvoke. split; [by destruct quiet as [[] |] |].
  unfold send_dice. rewrite Hpeer, Hwrite, Hinvoke.
  apply first_new_message_spec.
Qed.

(** A failure to resolve the peer, or of the server, is the outcome of
    [send_dice]; in the first case nothing is sent. *)
Lemma send_dice_raises chat_id emoji thread quiet reply_id date protect markup e :
  resolve_peer chat_id = Raise e ->
  send_dice Peer Emoji ReplyTo Datetime Markup RawMarkup resolve_peer
    get_reply_head_fm rnd_id datetime_to_timestamp write invoke parse
    chat_id emoji thread quiet reply_id date protect markup = Raise e.
Proof. intros H. unfold send_dice. by rewrite H. Qed.

End SendDiceFacts.

(** ** [on_raw_update] *)

(** Stacked decorators on something that is no client leave the function
    with its earlier handlers followed by one handler for each group, in the
    order of application, all wrapping that function; the name of the
    function stays.  On a client the function is left as it is and the
    handlers are added to the client, in that order. *)
Theorem on_raw_update_stacks (groups : list Z) (func : Handlers.Function)
    (added : list (Handlers.RawUpdateHandler * Z)) :
  groups <> [] ->
  Handlers.decorate Handlers.NotAClient groups func
  = (Handlers.NotAClient,
     Handlers.mkFunction (Handlers.name func)
       (Some (default [] (Handlers.handlers func)
              ++ map (fun g => (Handlers.mkHandler (Handlers.name func), g))
                   groups)))
  /\ Handlers.decorate (Handlers.AClient added) groups func
     = (Handlers.AClient
          (added ++ map (fun g => (Handlers.mkHandler (Handlers.name func), g))
                      groups),
        func).
Proof.
  intros Hne. unfold Handlers.decorate. split.
  - destruct groups as [| g groups]; [done |]. clear Hne. cbn [foldl].
    unfold Handlers.on_raw_update at 2. cbn [fst snd].
    change (match Handlers.handlers func with Some l => l | None => [] end)
      with (default [] (Handlers.handlers func)).
    generalize (default [] (Handlers.handlers func)). intros old.
    revert g old. induction groups as [| g' groups IH]; intros g old; [done |].
    cbn [foldl]. unfold Handlers.on_raw_update at 2. cbn [fst snd Handlers.name Handlers.handlers].
    rewrite IH. cbn [map]. by rewrite <- app_assoc.
  - clear Hne. revert added. induction groups as [| g groups IH]; intros added.
    + cbn. by rewrite app_nil_r.
    + cbn [foldl]. unfold Handlers.on_raw_update at 2. cbn [fst snd].
      rewrite IH. cbn [map]. by rewrite <- app_assoc.
Qed.

(** ** Witnesses on the sample collaborators *)

Lemma search_messages_pages_witness :
  exists calls,
    sample_search 1 3
    = Some (mkRun (map text_message ["b"; "c"; "d"]) calls Returned).
Proof.
  apply (search_messages_pages unit unit unit (fun _ => Ret tt) (fun f => f)
           paging_invoke (Name "me") "" tt None sample_store 1 3);
    [lia | reflexivity].
Defined.

Lemma search_messages_calls_witness :
  Forall (fun c => snd c = 2%Z /\ (1 <= snd c <= 100)%Z) [(0%Z, 2%Z); (1%Z, 2%Z)]
  /\ hd_error (map fst [(0%Z, 2%Z); (1%Z, 2%Z)]) = Some 0%Z.
Proof.
  destruct (search_messages_calls unit unit unit (fun _ => Ret tt) (fun f => f)
              (fun req _ => match Search.add_offset req with
                            | 0%Z => Ret [text_message "a"]
                            | _ => Ret []
                            end)
              (Name "me") "" tt None 0 (-2)
              (mkRun [text_message "a"] [(0%Z, 2%Z); (1%Z, 2%Z)] Returned))
    as [H1 [H2 _]].
  - reflexivity.
  - split; [exact H1 | exact H2].
Defined.

Lemma send_dice_result_witness :
  or_none (Some false) <> Some false
  /\ match sample_send_dice with
     | Ret None => Forall (fun i => new_message i = None) (raw.updates dice_answer)
     | Ret (Some msg) =>
         exists pre i post body,
           raw.updates dice_answer = pre ++ i :: post
           /\ Forall (fun j => new_message j = None) pre
           /\ new_message i = Some body
           /\ msg = flag_parse body (dict_by_id (raw.users dice_answer))
                      (dict_by_id (raw.chats dice_answer)) (is_scheduled i)
     | Raise _ => False
     end.
Proof.
  exact (send_dice_result unit unit unit unit unit unit (fun _ => Ret tt)
           (fun _ _ => tt) 5 (fun _ => None) (fun _ => Ret tt)
           (fun _ => Ret dice_answer) flag_parse
           (Id 1) tt None (Some false) None None None None tt None dice_answer
           eq_refl eq_refl eq_refl).
Defined.

(** On the sample answer: the scheduled message is the one returned, and the
    later of the two users with id 7 is the one the dictionary holds. *)
Lemma send_dice_sample :
  sample_send_dice
  = Ret (Some (flag_parse (tl_object 11) ∅ ∅ true))
  /\ dict_by_id (raw.users dice_answer) !! 7%Z
     = Some (raw.mkEntity 7 (tl_object 2)).
Proof. split; reflexivity. Qed.

Lemma on_raw_update_stacks_witness :
  Handlers.decorate Handlers.NotAClient [0%Z; 1%Z]
    (Handlers.mkFunction "raw" None)
  = (Handlers.NotAClient,
     Handlers.mkFunction "raw"
       (Some [(Handlers.mkHandler "raw", 0%Z); (Handlers.mkHandler "raw", 1%Z)])).
Proof.
  apply (proj1 (on_raw_update_stacks [0%Z; 1%Z] (Handlers.mkFunction "raw" None)
                  [] ltac:(discriminate))).
Defined.

(** ** The shape of the tokens *)

Lemma non_space_run_word c t w rest :
  is_space c = false ->
  Re.non_space_run (String c t) = (w, rest) ->
  w <> "" /\ no_space w = true.
Proof.
  intros Hc H. destruct (non_space_run_spec _ _ _ H) as [_ [Hw _]].
  split; [| done]. simpl in H. rewrite Hc in H.
  destruct (Re.non_space_run t). by injection H as <- _.
Qed.

Lemma command_re_scan_shape fuel s :
  Forall token_ok (Re.command_re_scan fuel s).
Proof.
  revert s. induction fuel as [| fuel IH]; intros s; [constructor |].
  destruct s as [| c t]; [constructor |]. cbn [Re.command_re_scan].
  destruct (is_quote c) eqn:Eq.
  - destruct (Re.quoted_span c c t) as [[inner rest] |] eqn:E.
    + constructor; [| apply IH]. split; [done |].
      by destruct (quoted_span_sound _ _ _ _ _ E) as [_ [Hn _]].
    + destruct (is_space c) eqn:Ec; [apply IH |].
      destruct (Re.non_space_run (String c t)) as [w rest] eqn:Er.
      constructor; [| apply IH]. by apply (non_space_run_word c t w rest).
  - destruct (is_space c) eqn:Ec; [apply IH |].
    destruct (Re.non_space_run (String c t)) as [w rest] eqn:Er.
    constructor; [| apply IH]. by apply (non_space_run_word c t w rest).
Qed.

(** Every match of [command_re] in any text is a non-empty run without white
    space, or a span that a quote opened and that holds no newline; and every
    argument comes from one match, in order. *)
Theorem command_tokens_shape (s : string) :
  Forall token_ok (Re.command_re_finditer s)
  /\ length (arguments s) = length (Re.command_re_finditer s)
  /\ length (arguments s) <= String.length s.
Proof.
  split; [apply command_re_scan_shape |].
  split; [unfold arguments; by rewrite length_map |].
  unfold arguments. rewrite length_map. unfold Re.command_re_finditer.
  assert (H : forall n t, length (Re.command_re_scan n t) <= String.length t).
  { induction n as [| n IH]; intros t; [cbn; lia |].
    destruct t as [| c t]; [cbn; lia |]. cbn [Re.command_re_scan String.length].
    destruct (if is_quote c then Re.quoted_span c c t else None)
      as [[inner rest] |] eqn:E.
    - destruct (is_quote c); [| discriminate E].
      apply quoted_span_shorter in E. cbn [length]. specialize (IH rest). lia.
    - destruct (is_space c) eqn:Ec; [specialize (IH t); lia |].
      destruct (Re.non_space_run (String c t)) as [w rest] eqn:Er.
      apply non_space_run_cons in Er; [| done].
      cbn [length]. specialize (IH rest). lia. }
  apply H.
Qed.
